(** * x-ray: the schema walker and the pagination controller

    A shallow embedding of [lib/walk.js], [lib/validate-types.js] and of
    [index.js] ([Xray], [node], [next], [WalkHTML]) of the x-ray scraper,
    with the properties of the walker, of strict-mode validation and of
    the pagination cycle that the design document states about them.

    - JavaScript values are a tagged inductive type, [jsval]; [typeof],
      [instanceof RegExp] and [.constructor] are read off the tag.
    - The code is in continuation-passing style.  A callback-taking
      function is rendered by the list of invocations it makes of its
      continuation, and everything that leaves the controller (requests,
      loads, stream writes, calls of the abort predicate, reports) by an
      event trace.
    - What is not among the sources ([lib/util.js], [lib/resolve.js],
      cheerio, the crawler, the user's functions) is a parameter.  A
      foreign call that takes a continuation calls it once; [resolve]
      returns.  The children of a mapping and the sub-walks of a
      sequence are done in an order that is a parameter.
    - A run may paginate for ever, so the cycle is given fuel: one unit
      per request. *)

From Stdlib Require Import Ascii ZArith Lia Permutation.
From stdpp Require Import base option list strings numbers.

Open Scope string_scope.
Open Scope list_scope.
Set Warnings "-register-all".

(* ===================================================================== *)
(** ** JavaScript values *)
(* ===================================================================== *)

(** What [value.constructor] is for an object that has no own property of
    that name: [Object] for a literal, [undefined] for
    [Object.create(null)], the class for an instance. *)
Inductive ctor :=
| CtorObject
| CtorNone
| CtorClass (name : string).

(** Schemas and walk results.  Functions and regular expressions are
    foreign: they are named by a handle and run by the environment.
    The properties of an object are kept in [Object.keys] order. *)
Inductive jsval :=
| JUndefined
| JNull
| JBool (b : bool)
| JNum (n : Z)
| JStr (s : string)
| JFun (f : nat)
| JRegExp (r : nat)
| JArr (items : list jsval)
| JObj (c : ctor) (props : list (string * jsval)).

(** Errors passed as the first argument of a continuation. *)
Inductive jserror :=
| TypeError (message : string) (path : option string) (receivedType : option string)
| Failure (tag : nat).

Inductive result (A : Type) :=
| Ok (a : A)
| Err (e : jserror).
Arguments Ok {A} a.
Arguments Err {A} e.

(** The key argument of [walk]: [undefined] at the root. *)
Definition okey := option string.

Definition typeof (v : jsval) : string :=
  match v with
  | JUndefined => "undefined"
  | JNull => "object"
  | JBool _ => "boolean"
  | JNum _ => "number"
  | JStr _ => "string"
  | JFun _ => "function"
  | JRegExp _ => "object"
  | JArr _ => "object"
  | JObj _ _ => "object"
  end.

Definition typeof_is (v : jsval) (t : string) : bool :=
  bool_decide (typeof v = t).

Definition instanceofRegExp (v : jsval) : bool :=
  match v with JRegExp _ => true | _ => false end.

Definition is_undefined (v : jsval) : bool :=
  match v with JUndefined => true | _ => false end.

Definition is_empty_string (v : jsval) : bool :=
  match v with JStr s => bool_decide (s = EmptyString) | _ => false end.

Definition truthy (v : jsval) : bool :=
  match v with
  | JUndefined | JNull => false
  | JBool b => b
  | JNum n => negb (Z.eqb n 0)
  | JStr s => negb (bool_decide (s = EmptyString))
  | JFun _ | JRegExp _ | JArr _ | JObj _ _ => true
  end.

(** [o[k]] on a property list, and [o[k] = v]: an existing key keeps its
    place, a new one goes last. *)
Fixpoint prop_get (k : string) (props : list (string * jsval)) : option jsval :=
  match props with
  | [] => None
  | (k', v) :: rest => if bool_decide (k' = k) then Some v else prop_get k rest
  end.

Fixpoint prop_set (k : string) (v : jsval) (props : list (string * jsval))
  : list (string * jsval) :=
  match props with
  | [] => [(k, v)]
  | (k', v') :: rest =>
      if bool_decide (k' = k) then (k, v) :: rest else (k', v') :: prop_set k v rest
  end.

(** The keys an object keeps in numeric order, whenever they were set:
    the strings of digits.  [prop_set] gives the place of every other
    key. *)
Fixpoint all_digits (s : string) : bool :=
  match s with
  | EmptyString => true
  | String c rest =>
      (48 <=? Ascii.nat_of_ascii c)%nat && (Ascii.nat_of_ascii c <=? 57)%nat &&
      all_digits rest
  end.

Definition index_like (k : string) : bool :=
  match k with EmptyString => false | _ => all_digits k end.

(** [v[0]]. *)
Definition index0 (v : jsval) : jsval :=
  match v with
  | JArr (x :: _) => x
  | JObj _ props => default JUndefined (prop_get "0" props)
  | _ => JUndefined
  end.

(** [value.constructor === Object || value.constructor === undefined].
    An own property named [constructor] shadows the inherited one.
    Reading the property of [null] or [undefined] throws; [walk] only
    reaches the test behind [isObject(value) &&], and the test is false
    here for every value that is not an object. *)
Definition ctor_plain (v : jsval) : bool :=
  match v with
  | JObj c props =>
      match prop_get "constructor" props with
      | Some own => is_undefined own
      | None => match c with CtorClass _ => false | _ => true end
      end
  | _ => false
  end.

(** Modelled from the spec: [lib/util.js] is not among the sources.
    [isArray] is the probe that singles out the Sequence variant of a
    schema, the array values. *)
Definition isArray (v : jsval) : bool :=
  match v with JArr _ => true | _ => false end.

(** [Array.prototype.concat] with one argument, and [push]. *)
Definition js_concat (pages : list jsval) (obj : jsval) : list jsval :=
  match obj with
  | JArr items => pages ++ items
  | _ => pages ++ [obj]
  end.

Definition js_push (pages : list jsval) (obj : jsval) : list jsval :=
  pages ++ [obj].

(** What a page adds to the pages of a run: its elements when its value
    is an array, the value otherwise. *)
Definition page_items (obj : jsval) : list jsval :=
  match obj with
  | JArr items => items
  | _ => [obj]
  end.

(** [out[i] = obj] on an array: writing past the end extends it, and the
    holes left behind read as [undefined]. *)
Definition js_array_set (out : list jsval) (i : nat) (obj : jsval) : list jsval :=
  if decide (i < length out)%nat then <[i := obj]> out
  else out ++ replicate (i - length out) JUndefined ++ [obj].

(* ===================================================================== *)
(** ** lib/walk.js *)
(* ===================================================================== *)

(** A continuation is rendered by the invocations made of it, in order.
    [batch] (an npm dependency) runs every task pushed to it and calls
    its [end] callback once: with the first error a task reports, or
    when every task has called back.  For the single task of a leaf this
    is the first invocation; no invocation at all leaves the walk
    pending ([None]). *)
Definition settle (calls : list (result jsval)) : option (result jsval) :=
  head calls.

(** What a walk leaves behind: the calls it made of the per-leaf callback
    [fn(value, key, next)], and what it passes to [done]. *)
Record walked := {
  walk_calls : list (jsval * okey);
  walk_done : option (result jsval)
}.

(** The batch of a mapping while its children call back: [out], the
    error that ended it, if one did, and the number of tasks still
    pending. *)
Record batch_state := {
  batch_out : list (string * jsval);
  batch_err : option jserror;
  batch_left : Z
}.

(** [undefined !== value && value !== '']. *)
Definition retained (value : jsval) : bool :=
  negb (is_undefined value) && negb (is_empty_string value).

(** The callback of one child of a mapping, when the walk of the child
    is done: [if (err) return next(err); if (undefined !== value &&
    value !== '') out[k] = value; next()], [next] being the callback of
    the batch, which ignores what comes after an error.  A child whose
    walk is never done does not call. *)
Definition child_done (k : string) (r : option (result jsval)) (b : batch_state)
  : batch_state :=
  match batch_err b with
  | Some _ => b
  | None =>
      match r with
      | None => b
      | Some (Err e) =>
          {| batch_out := batch_out b; batch_err := Some e; batch_left := batch_left b |}
      | Some (Ok value) =>
          {| batch_out := if retained value then prop_set k value (batch_out b)
                          else batch_out b;
             batch_err := None;
             batch_left := (batch_left b - 1)%Z |}
      end
  end.

(** What [batch.end] passes on: the error, or [out] once no task is
    pending; nothing until then. *)
Definition batch_end (b : batch_state) : option (result jsval) :=
  match batch_err b with
  | Some e => Some (Err e)
  | None =>
      if Z.eqb (batch_left b) 0 then Some (Ok (JObj CtorObject (batch_out b)))
      else None
  end.

Definition batch_init (total : nat) : batch_state :=
  {| batch_out := []; batch_err := None; batch_left := Z.of_nat total |}.

Definition child_step (b : batch_state) (kw : string * walked) : batch_state :=
  child_done (fst kw) (walk_done (snd kw)) b.


(** The entry a settled child leaves in [out], if it leaves one. *)
Definition kept_entry (kw : string * walked) : option (string * jsval) :=
  match walk_done (snd kw) with
  | Some (Ok value) => if retained value then Some (fst kw, value) else None
  | _ => None
  end.

(** The children in the order in which their walks are done. *)
Definition in_order {A : Type} (completion : list nat) (children : list A) : list A :=
  omap (fun i => children !! i) completion.

(** The walk of a mapping from the walks of its children: the per-leaf
    callback is called for every child as the tasks are started, in
    declaration order; the children are done in the order [completion]. *)
Definition assemble (completion : list nat) (children : list (string * walked))
  : walked :=
  {| walk_calls := concat (map (fun kw => walk_calls (snd kw)) children);
     walk_done :=
       batch_end (fold_left child_step (in_order completion children)
                            (batch_init (length children))) |}.

Section Walk.
(** [isObject] of [lib/util.js], which is not among the sources. *)
Variable isObject : jsval -> bool.
(** The order in which the [n] children of a mapping are done. *)
Variable settling : nat -> list nat.
(** The per-leaf callback, by the invocations it makes of [next]. *)
Variable fn : jsval -> okey -> list (result jsval).

Definition isPlainObject (value : jsval) : bool :=
  isObject value && negb (instanceofRegExp value) &&
  negb (typeof_is value "function") && ctor_plain value.

Definition visit (value : jsval) (key : okey) : walked :=
  {| walk_calls := [(value, key)]; walk_done := settle (fn value key) |}.

Fixpoint walk (value : jsval) (key : okey) {struct value} : walked :=
  match value with
  | JObj c props =>
      if isPlainObject (JObj c props) then
        assemble (settling (length props))
                 ((fix each (ps : list (string * jsval))
                     : list (string * walked) :=
                      match ps with
                      | [] => []
                      | (k, v) :: rest => (k, walk v (Some k)) :: each rest
                      end) props)
      else visit value key
  | _ => visit value key
  end.

Definition walk_children (props : list (string * jsval)) : list (string * walked) :=
  map (fun kv => (fst kv, walk (snd kv) (Some (fst kv)))) props.

End Walk.

(* ===================================================================== *)
(** ** lib/validate-types.js *)
(* ===================================================================== *)

Record validation := {
  v_valid : bool;
  v_type : string;
  v_error : option string
}.

Definition valid_as (t : string) : validation :=
  {| v_valid := true; v_type := t; v_error := None |}.

Definition invalid_as (t : string) (msg : string) : validation :=
  {| v_valid := false; v_type := t; v_error := Some msg |}.

(** A result that says valid carries no error, one that says invalid
    carries a message. *)
Definition coherent (r : validation) : Prop :=
  (v_valid r = true /\ v_error r = None) \/
  (v_valid r = false /\ exists msg, v_error r = Some msg).

(** Two validations that agree on everything but the message. *)
Definition same_verdict (a b : validation) : Prop :=
  v_valid a = v_valid b /\ v_type a = v_type b.

Definition dquote : string := String (Ascii.ascii_of_nat 34) EmptyString.

Definition quoted (path : string) : string := dquote +:+ path +:+ dquote.

Definition empty_array_msg (path : string) : string :=
  "Empty array selector at " +:+ quoted path +:+
  ". Arrays must contain at least one element.".

Definition invalid_array_msg (path : string) (first : jsval) : string :=
  "Invalid array selector at " +:+ quoted path +:+
  ". Arrays must contain either a string or an object, got " +:+ typeof first +:+ ".".

Definition empty_object_msg (path : string) : string :=
  "Empty object selector at " +:+ quoted path +:+
  ". Objects must contain at least one property.".

Definition unsupported_msg (path : string) (value : jsval) : string :=
  "Unsupported selector type at " +:+ quoted path +:+ ". Got " +:+ typeof value +:+
  ", expected string, function, array, object, RegExp, null, or undefined.".

(** The loop of [validateObject] seen from its results: the first
    validation that failed, or a valid object. *)
Fixpoint first_invalid (vs : list validation) : validation :=
  match vs with
  | [] => valid_as "object"
  | r :: rest => if v_valid r then first_invalid rest else r
  end.

(** The registered custom types, as far as validation reads them: the
    name and the discriminator ([null] when none was given), in [for in]
    order. *)
Definition validators := list (string * option (jsval -> bool)).

Fixpoint custom_match (cts : validators) (value : jsval) : option string :=
  match cts with
  | [] => None
  | (typeName, Some validator) :: rest =>
      if validator value then Some typeName else custom_match rest value
  | (_, None) :: rest => custom_match rest value
  end.

Section Validate.
Variable customTypes : validators.

(** [validateType(value, path, options)], with [validateObject] on the
    values it hands to it, the objects, as the local [props_loop]: the
    empty-object answer when there is no key, the loop over the keys
    otherwise. *)
Fixpoint validateType (value : jsval) (path : string) {struct value} : validation :=
  let path := if bool_decide (path = EmptyString) then "selector" else path in
  let props_loop :=
    fix props_loop (ps : list (string * jsval)) (path : string) : validation :=
      match ps with
      | [] => valid_as "object"
      | (key, v) :: rest =>
          let r := validateType v (path +:+ "." +:+ key) in
          if v_valid r then props_loop rest path else r
      end in
  match value with
  | JNull => valid_as "null"
  | JUndefined => valid_as "undefined"
  | JStr _ => valid_as "string"
  | JFun _ => valid_as "function"
  | JRegExp _ => valid_as "regexp"
  | JArr [] => invalid_as "array" (empty_array_msg path)
  | JArr (firstElement :: _) =>
      match firstElement with
      | JStr _ => valid_as "array-string"
      | JRegExp _ => invalid_as "object" (empty_object_msg (path +:+ "[0]"))
      | JObj _ [] => invalid_as "object" (empty_object_msg (path +:+ "[0]"))
      | JObj _ props =>
          let nested := props_loop props (path +:+ "[0]") in
          if v_valid nested then valid_as "array-object" else nested
      | _ => invalid_as "array" (invalid_array_msg path firstElement)
      end
  | JObj _ [] => invalid_as "object" (empty_object_msg path)
  | JObj _ props => props_loop props path
  | JBool _ | JNum _ =>
      match custom_match customTypes value with
      | Some typeName => valid_as ("custom:" +:+ typeName)
      | None => invalid_as (typeof value) (unsupported_msg path value)
      end
  end.

(** [assertValidType(value, path, options)]: the error it throws, if
    any. *)
Definition assertValidType (value : jsval) (path : string) : option jserror :=
  let validation := validateType value path in
  if v_valid validation then None
  else Some (TypeError (default EmptyString (v_error validation))
                       (Some path) (Some (v_type validation))).

(** [getTypeName(value, options)] and [isValidType(value, options)]:
    both validate at the empty path. *)
Definition getTypeName (value : jsval) : string :=
  v_type (validateType value EmptyString).

Definition isValidType (value : jsval) : bool :=
  v_valid (validateType value EmptyString).

End Validate.

(* ===================================================================== *)
(** ** index.js: WalkHTML *)
(* ===================================================================== *)

(** [scope && ~scope.indexOf('@')]. *)
Fixpoint has_at (s : string) : bool :=
  match s with
  | EmptyString => false
  | String c rest => if Ascii.eqb c "@"%char then true else has_at rest
  end.

Definition scope_has_at (scope : option string) : bool :=
  match scope with Some s => has_at s | None => false end.

(** The schemas that name nothing foreign: no function, and no sequence
    whose element is itself walked by a sub-node. *)
Fixpoint declarative (v : jsval) : bool :=
  match v with
  | JFun _ => false
  | JArr (first :: _) => negb (typeof_is first "object")
  | JObj _ props =>
      (fix all (ps : list (string * jsval)) : bool :=
         match ps with
         | [] => true
         | (_, x) :: rest => declarative x && all rest
         end) props
  | _ => true
  end.

(** The page limit: a number, [Infinity] by default. *)
Inductive lim :=
| Finite (n : Z)
| Infinity.

Definition lim_pred (l : lim) : lim :=
  match l with Finite n => Finite (n - 1) | Infinity => Infinity end.

Definition lim_le0 (l : lim) : bool :=
  match l with Finite n => Z.leb n 0 | Infinity => false end.

Inductive stream_kind := ArrayStream | ObjectStream.

(** The completion callback of the sub-walks of a sequence of mappings:
    [if (err) return next(err); out[i] = obj;
     if (!--pending) return next(null, compact(out))]. *)
Record seq_state := {
  seq_out : list jsval;
  seq_pending : Z;
  seq_calls : list (result jsval)
}.

(** The sub-walks that gave a value, and how many of those listed did. *)
Definition gives_value (sub : list (result jsval)) (i : nat) : bool :=
  match sub !! i with Some (Ok _) => true | _ => false end.

Fixpoint values_among (sub : list (result jsval)) (l : list nat) : nat :=
  match l with
  | [] => 0
  | i :: rest => (if gives_value sub i then 1 else 0) + values_among sub rest
  end.

(** The errors among the results [sub] of the sub-walks of a sequence,
    in the order [completion] in which the sub-walks call back. *)
Definition failures (completion : list nat) (sub : list (result jsval))
  : list (result jsval) :=
  omap (fun i => match sub !! i with
                 | Some (Err e) => Some (Err e)
                 | _ => None
                 end) completion.

Section Xray.
(** The document handle [$]: a loaded page or a scoped selection. *)
Variable doc : Type.

(** What [node] starts from: a URL or an HTML string, or a selection
    handed down by an enclosing walk. *)
Inductive source :=
| SrcVal (v : jsval)
| SrcDoc (d : doc).

(** An entry of [customTypes]: [{ handler, validator: validator || null }]. *)
Record typeConfig := {
  handler : jsval -> doc -> option string -> result jsval;
  validator : option (jsval -> bool)
}.

(** *** Collaborators

    [lib/util.js], [lib/resolve.js] and [lib/params.js] are not among
    the sources, cheerio and the crawler are dependencies: they are
    taken as they are called.  A foreign call that takes a continuation
    is given by what it passes to it. *)
Variable isObject : jsval -> bool.
Variable isUrl : jsval -> bool.
(** The order in which the [n] children of a mapping are done. *)
Variable settling : nat -> list nat.
Variable root : option string -> jsval.
Variable compact : list jsval -> list jsval.
(** [resolve($, scope, selector, filters)], the filter table being fixed
    at construction: the value of a call that returns.  [lib/resolve.js]
    is not among the sources; a call that raises instead, as on a filter
    that is not registered or on a source that is not a document, is not
    rendered, and what is stated of a run is stated of the calls that
    return. *)
Variable resolve : source -> jsval -> jsval -> jsval.
(** [v($, cb)] for a function selector. *)
Variable call_function : nat -> doc -> result jsval.
(** [$.root().text()], [$.text()] or [String($)], whichever [$] has. *)
Variable doc_text : doc -> string.
(** [text.match(v)]: [null], or the array of the match. *)
Variable regexp_match : nat -> string -> option (list jsval).
(** [$.find(scope)] or [$(scope)]: the selections [$scope.eq(i)], in
    document order. *)
Variable find : doc -> option string -> list doc.
(** [xray(scope, v[0])($innerscope, cb)]: [WalkHTML] receives [xray]
    as its first argument. *)
Variable xray : option string -> jsval -> doc -> result jsval.
(** The order in which the [n] sub-walks of a sequence call back. *)
Variable order : nat -> list nat.
(** [request(url, fn)] and [load(html, url)]. *)
Variable request : jsval -> result jsval.
Variable load : source -> option jsval -> doc.

(** *** Construction options *)
Variable customTypes : list (string * typeConfig).
Variable strictMode : bool.

Definition validators_of : validators :=
  map (fun nc => (fst nc, validator (snd nc))) customTypes.

(** The loop over [customTypes] in [walkHTML]: the first entry whose
    validator accepts [v]. *)
Fixpoint custom_find (cts : list (string * typeConfig)) (v : jsval)
  : option typeConfig :=
  match cts with
  | [] => None
  | (_, typeConfig) :: rest =>
      match validator typeConfig with
      | Some accepts => if accepts v then Some typeConfig else custom_find rest v
      | None => custom_find rest v
      end
  end.

(** The values for which the callback of [walkHTML] reaches its last
    lines, "Unknown type": no branch and no custom type takes them. *)
Definition unknown_type (v : jsval) : bool :=
  match v with
  | JNull | JUndefined | JStr _ | JFun _ | JRegExp _ => false
  | _ =>
      match custom_find customTypes v with
      | Some _ => false
      | None =>
          negb (isArray v &&
                (typeof_is (index0 v) "string" || typeof_is (index0 v) "object"))
      end
  end.

(** [typeConfig.validator &&]: the entries the loop can select. *)
Definition has_validator (nc : string * typeConfig) : bool :=
  match validator (snd nc) with Some _ => true | None => false end.

(** The values the callback of [walkHTML] answers before it looks at
    the custom types. *)
Definition builtin_selector (v : jsval) : bool :=
  match v with
  | JNull | JUndefined | JStr _ | JFun _ | JRegExp _ => true
  | _ => false
  end.

Definition element_done (sub : list (result jsval)) (s : seq_state) (i : nat)
  : seq_state :=
  match sub !! i with
  | None => s
  | Some (Err e) =>
      {| seq_out := seq_out s; seq_pending := seq_pending s;
         seq_calls := seq_calls s ++ [Err e] |}
  | Some (Ok obj) =>
      let out := js_array_set (seq_out s) i obj in
      let pending := (seq_pending s - 1)%Z in
      {| seq_out := out; seq_pending := pending;
         seq_calls := seq_calls s ++
           (if Z.eqb pending 0 then [Ok (JArr (compact out))] else []) |}
  end.

(** The branch [typeof v[0] === 'object'] of the array selector, given
    what each sub-walk passes to its callback and the order in which
    they do. *)
Definition walk_elements (completion : list nat) (sub : list (result jsval))
  : list (result jsval) :=
  match sub with
  | [] => [Ok (JArr [])]
  | _ =>
      seq_calls (fold_left (element_done sub) completion
                   {| seq_out := []; seq_pending := Z.of_nat (length sub);
                      seq_calls := [] |})
  end.

(** What holds of the state of a sequence whose sub-walks gave [objs],
    after those listed in [finished] have called back, in that order. *)
Record seq_inv (objs : list jsval) (finished : list nat) (s : seq_state) : Prop := {
  inv_pending : seq_pending s = (Z.of_nat (length objs) - Z.of_nat (length finished))%Z;
  inv_calls :
    seq_calls s =
      if decide (length finished < length objs)%nat then []
      else [Ok (JArr (compact (seq_out s)))];
  inv_out : forall i, In i finished -> seq_out s !! i = objs !! i;
  inv_length : (length (seq_out s) <= length objs)%nat
}.

Definition regexp_result (m : option (list jsval)) : jsval :=
  match m with
  | Some groups =>
      if negb (is_undefined (nth 1 groups JUndefined))
      then nth 1 groups JUndefined else nth 0 groups JUndefined
  | None => JNull
  end.

(** What leaves the controller, in order. *)
Inductive event :=
| EvRequest (url : jsval)
| EvLoad (html : source) (url : option jsval)
| EvValidate (selector : jsval)
| EvWalk (ctx : doc)
| EvAbort (obj url : jsval) (stop : bool)
| EvStream (obj : jsval) (finish : bool)
| EvReport (r : result jsval).

(** The arguments [next] is called with: [next(err)] or
    [next(null, obj, $)]. *)
Inductive signal :=
| SigErr (err : jserror)
| SigOk (obj : jsval) (ctx : doc).

(** [state], [pages] and [stream] of one [xray(source, scope, selector)]. *)
Record state := {
  st_paginate : jsval;
  st_limit : lim;
  st_abort : option (jsval -> jsval -> bool);
  st_pages : list jsval;
  st_stream : option stream_kind
}.

(** [CONST.INIT_STATE] with empty [pages] and no stream yet. *)
Definition INIT_STATE : state :=
  {| st_paginate := JBool false; st_limit := Infinity; st_abort := None;
     st_pages := []; st_stream := None |}.

(** How a run ended: a terminal branch of [next] was taken, a walk
    never called back, or the fuel of the model ran out while a request
    was due. *)
Inductive status := Finished | Stalled | OutOfFuel.

Section Node.
Variable selector : jsval.
Variable scope : option string.

(** The tail of the per-leaf callback, from [isArray(v)] on. *)
Definition leaf_array_or_unknown (ctx : doc) (v : jsval) (k : okey)
  : list (result jsval) :=
  if isArray v && typeof_is (index0 v) "string" then
    [Ok (resolve (SrcDoc ctx) (root scope) v)]
  else if isArray v && typeof_is (index0 v) "object" then
    let els := find ctx scope in
    walk_elements (order (length els)) (map (xray scope (index0 v)) els)
  else if strictMode then
    let validation := validateType validators_of v (default EmptyString k) in
    if v_valid validation then [Ok JUndefined]
    else [Err (TypeError (default EmptyString (v_error validation)) None None)]
  else [Ok JUndefined].

(** The callback [function (v, k, next)] that [walkHTML] gives to
    [walk], by what it passes to [next]. *)
Definition leaf (ctx : doc) (v : jsval) (k : okey) : list (result jsval) :=
  match v with
  | JNull | JUndefined => [Ok JNull]
  | JStr _ => [Ok (resolve (SrcDoc ctx) (root scope) v)]
  | JFun f => [call_function f ctx]
  | JRegExp r => [Ok (regexp_result (regexp_match r (doc_text ctx)))]
  | _ =>
      match custom_find customTypes v with
      | Some typeConfig => [handler typeConfig v ctx scope]
      | None => leaf_array_or_unknown ctx v k
      end
  end.

(** [walkHTML($, fn)]: validation in strict mode, then the walk; the
    result is what [fn] is called with. *)
Definition walkHTML (ctx : doc) : list event * option signal :=
  match (if strictMode then assertValidType validators_of selector "selector"
         else None) with
  | Some err => ([EvValidate selector], Some (SigErr err))
  | None =>
      ((if strictMode then [EvValidate selector] else []) ++ [EvWalk ctx],
       match walk_done (walk isObject settling (leaf ctx) selector None) with
       | None => None
       | Some (Err err) => Some (SigErr err)
       | Some (Ok obj) => Some (SigOk obj ctx)
       end)
  end.

(** One call of [next(err, obj, $)]: the new state, what it emits, and
    the URL it goes on to request, if it does.  The call of the stream
    helper is the event [EvStream]; what the helper does with it is in
    [lib/stream.js] below.  The step is that of a call of the helper
    that returns, as every call does when no stream is attached: the
    helper for arrays throws on a value without rendering when one is,
    and then [next] neither reports nor requests.  [write_returns] and
    [stream_returns] say of a value and of a run that the calls
    return. *)
Definition next (st : state) (sig : signal) : state * list event * option jsval :=
  match sig with
  | SigErr err => (st, [EvReport (Err err)], None)
  | SigOk obj ctx =>
      let paginate := st_paginate st in
      let limit := lim_pred (st_limit st) in
      let stream :=
        match st_stream st with
        | Some kind => Some kind
        | None => Some (if truthy paginate then ArrayStream else ObjectStream)
        end in
      if truthy paginate then
        let pages :=
          if isArray obj then js_concat (st_pages st) obj
          else js_push (st_pages st) obj in
        let st' := {| st_paginate := paginate; st_limit := limit;
                      st_abort := st_abort st; st_pages := pages;
                      st_stream := stream |} in
        let finish := (st', [EvStream obj true; EvReport (Ok (JArr pages))], None) in
        if lim_le0 limit then finish
        else
          let url := resolve (SrcDoc ctx) (JBool false) paginate in
          if negb (isUrl url) then finish
          else
            match st_abort st with
            | Some abort =>
                if abort obj url
                then (st', EvAbort obj url true
                             :: [EvStream obj true; EvReport (Ok (JArr pages))], None)
                else (st', [EvAbort obj url false; EvStream obj false], Some url)
            | None => (st', [EvStream obj false], Some url)
            end
      else
        ({| st_paginate := paginate; st_limit := limit; st_abort := st_abort st;
            st_pages := st_pages st; st_stream := stream |},
         [EvStream obj true; EvReport (Ok obj)], None)
  end.

(** [request(url, function (err, html) { if (err) return next(err);
    const $ = load(html, url); walkHTML($, next) })]: what it emits
    and what [next] is then called with. *)
Definition fetch (url : jsval) : list event * option signal :=
  match request url with
  | Err err => ([EvRequest url], Some (SigErr err))
  | Ok html =>
      let '(evs, sig) := walkHTML (load (SrcVal html) (Some url)) in
      (EvRequest url :: EvLoad (SrcVal html) (Some url) :: evs, sig)
  end.

(** [walkHTML(load(html), next)] for a document that is not fetched. *)
Definition open_local (html : source) : list event * option signal :=
  let '(evs, sig) := walkHTML (load html None) in
  (EvLoad html None :: evs, sig).

(** The pagination cycle from a call of [next] on: every request it
    makes costs one unit of fuel. *)
Fixpoint cycle (fuel : nat) (st : state) (sig : option signal)
  : list event * status :=
  match sig with
  | None => ([], Stalled)
  | Some sig =>
      let '(st', evs, continue) := next st sig in
      match continue with
      | None => (evs, Finished)
      | Some url =>
          match fuel with
          | O => (evs, OutOfFuel)
          | S fuel' =>
              let '(evs1, sig') := fetch url in
              let '(evs2, s) := cycle fuel' st' sig' in
              (evs ++ evs1 ++ evs2, s)
          end
      end
  end.

(** [state] and [pages] as the cycle leaves them: they belong to the
    [xray(source, scope, selector)] call, and outlive the run. *)
Fixpoint final_state (fuel : nat) (st : state) (sig : option signal) : state :=
  match sig with
  | None => st
  | Some sig =>
      let '(st', _, continue) := next st sig in
      match continue with
      | None => st'
      | Some url =>
          match fuel with
          | O => st'
          | S fuel' => final_state fuel' st' (snd (fetch url))
          end
      end
  end.

(** The document has [k] pages after it: the pagination selector
    resolves to a URL, the request and the walk of that page succeed,
    and so on from there. *)
Fixpoint chain (k : nat) (paginate : jsval) (ctx : doc) : bool :=
  match k with
  | O => true
  | S k' =>
      let url := resolve (SrcDoc ctx) (JBool false) paginate in
      isUrl url &&
      match snd (fetch url) with
      | Some (SigOk _ ctx') => chain k' paginate ctx'
      | _ => false
      end
  end.

(** [isUrl(source)]: a selection is not a URL. *)
Definition source_url (src : source) : option jsval :=
  match src with
  | SrcVal v => if isUrl v then Some v else None
  | SrcDoc _ => None
  end.

Definition source_truthy (src : source) : bool :=
  match src with SrcVal v => truthy v | SrcDoc _ => true end.

Definition empty_html : source := SrcVal (JStr EmptyString).

(** The branches of [node(source, fn)]: where the first document comes
    from.  Each of them hands [next] to [walkHTML].  With a scope of
    the form selector@attribute the source itself goes to [resolve],
    which takes it when it is a selection. *)
Definition first_page (src : source) : list event * option signal :=
  match source_url src with
  | Some url => fetch url
  | None =>
      if scope_has_at scope then
        let url := resolve src (JBool false) (JStr (default EmptyString scope)) in
        if negb (isUrl url) then open_local empty_html
        else fetch url
      else if source_truthy src then open_local src
      else open_local empty_html
  end.

(** [node(source, fn)]: the trace of the run up to the report [fn]
    receives. *)
Definition node (fuel : nat) (st : state) (src : source) : list event * status :=
  let first := first_page src in
  let '(evs, s) := cycle fuel st (snd first) in
  (fst first ++ evs, s).

(** [state] and [pages] after [node(source, fn)]. *)
Definition node_state (fuel : nat) (st : state) (src : source) : state :=
  final_state fuel st (snd (first_page src)).

End Node.
End Xray.

Arguments SrcVal {doc} v.
Arguments SrcDoc {doc} d.
Arguments EvRequest {doc} url.
Arguments EvLoad {doc} html url.
Arguments EvValidate {doc} selector.
Arguments EvWalk {doc} ctx.
Arguments EvAbort {doc} obj url stop.
Arguments EvStream {doc} obj finish.
Arguments EvReport {doc} r.
Arguments SigErr {doc} err.
Arguments SigOk {doc} obj ctx.
Arguments empty_html {doc}.

(* ===================================================================== *)
(** ** Reading a trace *)
(* ===================================================================== *)

Section Traces.
Context {doc : Type}.

(** The terminal reports [fn] received. *)
Fixpoint reports (tr : list (event doc)) : list (result jsval) :=
  match tr with
  | [] => []
  | EvReport r :: rest => r :: reports rest
  | _ :: rest => reports rest
  end.

(** The URLs handed to the crawler. *)
Fixpoint requested (tr : list (event doc)) : list jsval :=
  match tr with
  | [] => []
  | EvRequest url :: rest => url :: requested rest
  | _ :: rest => requested rest
  end.

(** The documents the schema was walked against. *)
Fixpoint walked_docs (tr : list (event doc)) : list doc :=
  match tr with
  | [] => []
  | EvWalk ctx :: rest => ctx :: walked_docs rest
  | _ :: rest => walked_docs rest
  end.

(** The page values written to the stream, one per completed page. *)
Fixpoint streamed (tr : list (event doc)) : list jsval :=
  match tr with
  | [] => []
  | EvStream obj _ :: rest => obj :: streamed rest
  | _ :: rest => streamed rest
  end.

(** The calls [stream(obj)] and [stream(obj, true)], with the flag. *)
Fixpoint stream_calls (tr : list (event doc)) : list (jsval * bool) :=
  match tr with
  | [] => []
  | EvStream obj finish :: rest => (obj, finish) :: stream_calls rest
  | _ :: rest => stream_calls rest
  end.

(** The arguments the abort predicate was called with. *)
Fixpoint abort_calls (tr : list (event doc)) : list (jsval * jsval) :=
  match tr with
  | [] => []
  | EvAbort obj url _ :: rest => (obj, url) :: abort_calls rest
  | _ :: rest => abort_calls rest
  end.

(** [next] called once per signal, as racing branches would. *)
Fixpoint deliver (step : state -> signal doc -> state * list (event doc) * option jsval)
    (st : state) (sigs : list (signal doc)) : list (event doc) :=
  match sigs with
  | [] => []
  | sig :: rest =>
      let '(st', evs, _) := step st sig in evs ++ deliver step st' rest
  end.


(** What [next] does to [pages] with the value of a page. *)
Definition accumulate (pages : list jsval) (obj : jsval) : list jsval :=
  if isArray obj then js_concat pages obj else js_push pages obj.

End Traces.

(** The calls of a run that reports a value end on the closing one; no
    other run has a closing call. *)
Definition closed_by_last (calls : list (jsval * bool)) : Prop :=
  exists pre last, calls = map (fun o => (o, false)) pre ++ [(last, true)].

Definition never_closed (calls : list (jsval * bool)) : Prop :=
  Forall (fun c => snd c = false) calls.

(* ===================================================================== *)
(** ** lib/stream.js *)
(* ===================================================================== *)

(** What a writable stream receives: [stream.write(chunk)],
    [stream.end(chunk)] and [stream.emit('error', err)].  A chunk is
    [undefined] when [JSON.stringify] gave that. *)
Inductive sink_op :=
| SinkWrite (chunk : option string)
| SinkEnd (chunk : option string)
| SinkError (err : jserror).

Definition newline : string := String (Ascii.ascii_of_nat 10) EmptyString.

(** [string.slice(1, -1)]. *)
Definition slice_inner (s : string) : string :=
  String.substring 1 (String.length s - 2) s.

(** The text a stream has received. *)
Fixpoint sink_text (ops : list sink_op) : string :=
  match ops with
  | [] => EmptyString
  | SinkWrite (Some chunk) :: rest => chunk +:+ sink_text rest
  | SinkEnd (Some chunk) :: rest => chunk +:+ sink_text rest
  | _ :: rest => sink_text rest
  end.

Definition is_end (op : sink_op) : bool :=
  match op with SinkEnd _ => true | _ => false end.

Definition is_error (op : sink_op) : bool :=
  match op with SinkError _ => true | _ => false end.

(** [a, b, c] joined with commas: the first as it is, a comma before
    each of the others. *)
Fixpoint after_commas (l : list string) : string :=
  match l with
  | [] => EmptyString
  | x :: rest => "," +:+ x +:+ after_commas rest
  end.

Definition join_commas (l : list string) : string :=
  match l with
  | [] => EmptyString
  | x :: rest => x +:+ after_commas rest
  end.

Definition is_write (op : sink_op) : bool :=
  match op with SinkWrite (Some _) => true | _ => false end.

Section Stream.
(** [JSON.stringify(data, true, 2)]: [undefined] for a value JSON does
    not render, such as [undefined] or a function. *)
Variable stringify : jsval -> option string.
(** [String.prototype.trim]. *)
Variable trim : string -> string.

(** [json] in [streamArrayInner], for data that has a rendering. *)
Definition fragment (data : jsval) (rendered : string) : string :=
  if isArray data then slice_inner rendered else rendered.

Definition blank (json : string) : bool := bool_decide (trim json = EmptyString).

(** [json] for a value, when it has a rendering. *)
Definition rendering (data : jsval) : option string :=
  option_map (fragment data) (stringify data).

(** [streamArrayInner(data, end)] of a helper made for a stream: the new
    value of [first] and what the stream receives; [None] when the call
    throws, which it does on [json.trim()] when there is no rendering. *)
Definition streamArrayInner (first : bool) (data : jsval) (finish : bool)
  : option (bool * list sink_op) :=
  match stringify data with
  | None => None
  | Some rendered =>
      let json := fragment data rendered in
      let empty := blank json in
      if first && empty && negb finish then Some (first, [])
      else
        Some (false,
              (if first then [SinkWrite (Some ("[" +:+ newline))] else []) ++
              (if negb first && negb empty then [SinkWrite (Some ",")] else []) ++
              [if finish then SinkEnd (Some (json +:+ "]"))
               else SinkWrite (Some json)])
  end.

(** [streamObjectInner(data, end)]. *)
Definition streamObjectInner (data : jsval) (finish : bool) : list sink_op :=
  [if finish then SinkEnd (stringify data) else SinkWrite (stringify data)].

(** The helper [streamHelper.array(stream)] called again and again:
    what the stream has received, and whether a call threw. *)
Fixpoint array_feed (first : bool) (calls : list (jsval * bool))
  : list sink_op * bool :=
  match calls with
  | [] => ([], false)
  | (data, finish) :: rest =>
      match streamArrayInner first data finish with
      | None => ([], true)
      | Some (first', ops) =>
          let '(more, thrown) := array_feed first' rest in (ops ++ more, thrown)
      end
  end.

(** [streamHelper.array(stream)] and [streamHelper.object(stream)]:
    without a stream the helper does nothing. *)
Definition streamArray (attached : bool) (calls : list (jsval * bool))
  : list sink_op * bool :=
  if attached then array_feed true calls else ([], false).

Definition streamObject (attached : bool) (calls : list (jsval * bool))
  : list sink_op :=
  if attached then concat (map (fun c => streamObjectInner (fst c) (snd c)) calls)
  else [].

(** [waitCb(stream, fn)]: the callback it hands to the node, by what
    the stream receives for a report. *)
Definition waitCb (report : result jsval) : list sink_op :=
  match report with Err err => [SinkError err] | Ok _ => [] end.

(** Whether the call of the helper with [obj] returns.  A helper made
    without a stream does nothing; one made with a stream returns on a
    value that has a rendering, and the one for arrays throws on any
    other. *)
Definition write_returns (attached : bool) (obj : jsval) : bool :=
  negb attached ||
  match stringify obj with Some _ => true | None => false end.

(** The stream calls of a run all return: the run is not paginated and
    its helper is not one for arrays kept from an earlier run, so that
    its one call ends the stream through the helper for objects; or
    every value it passes to the helper is one the call returns on. *)
Definition stream_returns {doc : Type} (attached : bool) (st : state)
    (tr : list (event doc)) : Prop :=
  (truthy (st_paginate st) = false /\ st_stream st <> Some ArrayStream) \/
  Forall (fun obj => write_returns attached obj = true) (streamed tr).

End Stream.

(* ===================================================================== *)
(** ** A three-page site *)
(* ===================================================================== *)

(** A concrete environment on which the definitions run: pages 1, 2 and 3
    linked in a row, page 0 the empty document, selections of a page
    numbered from 10 times the page. *)
Module Site.

Definition page := nat.

(** [isobject]: a non-null value of type object that is not an array. *)
Definition isObject (v : jsval) : bool :=
  match v with JObj _ _ | JRegExp _ => true | _ => false end.

Definition isUrl (v : jsval) : bool :=
  match v with JStr s => String.prefix "http://" s | _ => false end.

Definition root (scope : option string) : jsval :=
  match scope with
  | Some s => if has_at s then JBool false else JStr s
  | None => JBool false
  end.

Definition compact (l : list jsval) : list jsval :=
  filter (fun v => truthy v = true) l.

Definition url_of (p : nat) : jsval :=
  match p with
  | 1 => JStr "http://site/1"
  | 2 => JStr "http://site/2"
  | 3 => JStr "http://site/3"
  | _ => JUndefined
  end.

Definition html_of (p : nat) : jsval :=
  match p with
  | 1 => JStr "<h1>one</h1>"
  | 2 => JStr "<h1>two</h1>"
  | 3 => JStr "<h1>three</h1>"
  | _ => JStr EmptyString
  end.

Definition title_of (p : nat) : jsval :=
  match p with
  | 1 => JStr "one" | 2 => JStr "two" | 3 => JStr "three"
  | 10 => JStr "a" | 11 => JStr "b" | 12 => JStr "c"
  | 20 => JStr "d" | 21 => JStr "e"
  | _ => JStr EmptyString
  end.

Definition page_of_html (v : jsval) : nat :=
  match v with
  | JStr "<h1>one</h1>" => 1
  | JStr "<h1>two</h1>" => 2
  | JStr "<h1>three</h1>" => 3
  | _ => 0
  end.

Definition page_of_url (v : jsval) : nat :=
  match v with
  | JStr "http://site/1" => 1
  | JStr "http://site/2" => 2
  | JStr "http://site/3" => 3
  | _ => 0
  end.

Definition here (src : source page) : nat :=
  match src with SrcDoc p => p | SrcVal v => page_of_html v end.

Definition resolve (src : source page) (scope selector : jsval) : jsval :=
  match selector with
  | JStr "h1" => title_of (here src)
  | JStr ".next@href" =>
      match here src with 1 => url_of 2 | 2 => url_of 3 | _ => JUndefined end
  | JStr ".missing" => JStr EmptyString
  | JArr (JStr "li" :: _) =>
      match here src with
      | 1 => JArr [JStr "a"; JStr "b"; JStr "c"]
      | 2 => JArr [JStr "d"; JStr "e"]
      | 3 => JArr [JStr "f"]
      | _ => JArr []
      end
  | _ => JNull
  end.

Definition call_function (f : nat) (p : page) : result jsval :=
  match f with 0 => Ok (JStr "called") | _ => Err (Failure f) end.

Definition doc_text (p : page) : string :=
  match title_of p with JStr s => s | _ => EmptyString end.

Definition regexp_match (r : nat) (text : string) : option (list jsval) :=
  if bool_decide (text = EmptyString) then None else Some [JStr text].

Definition find (p : page) (scope : option string) : list page :=
  match p with
  | 1 => [10; 11; 12]
  | 2 => [20; 21]
  | _ => []
  end.

(** The sub-node of a sequence: here it reads the title of the
    selection. *)
Definition xray (scope : option string) (v0 : jsval) (p : page) : result jsval :=
  Ok (JObj CtorObject [("title", title_of p)]).

(** Later elements call back first, and later children are done first. *)
Definition order (n : nat) : list nat := rev (seq 0 n).
Definition settling (n : nat) : list nat := rev (seq 0 n).

Definition request (url : jsval) : result jsval :=
  match page_of_url url with
  | 0 => Err (Failure 404)
  | p => Ok (html_of p)
  end.

Definition load (src : source page) (url : option jsval) : page := here src.

Definition customTypes : list (string * typeConfig page) := [].

(** A node on the site: [xray(source, scope, selector)] called with a
    source. *)
Definition run (strict : bool) (selector : jsval) (scope : option string)
    (fuel : nat) (st : state) (src : source page) : list (event page) * status :=
  node page isObject isUrl settling root compact resolve call_function doc_text
       regexp_match find xray order request load customTypes strict selector scope
       fuel st src.

(** [.paginate('.next@href').limit(limit)], with or without [.abort]. *)
Definition paginated (limit : Z) (abort : option (jsval -> jsval -> bool)) : state :=
  {| st_paginate := JStr ".next@href"; st_limit := Finite limit; st_abort := abort;
     st_pages := []; st_stream := None |}.

(** An abort predicate that fires on the items of the second page. *)
Definition stop_on_second (result url : jsval) : bool :=
  match result with JArr (JStr "d" :: _) => true | _ => false end.

Definition items : jsval := JArr [JStr "li"].
Definition titled : jsval := JObj CtorObject [("title", JStr "h1")].
Definition malformed : jsval :=
  JObj CtorObject [("title", JStr "h1"); ("bad", JNum 123)].

End Site.

(** A sub-node that fails on every selection but the first of page 1. *)
Definition flaky (scope : option string) (v0 : jsval) (p : Site.page) : result jsval :=
  match p with
  | 10 => Ok (JObj CtorObject [("title", Site.title_of p)])
  | _ => Err (Failure p)
  end.

(** A renderer and a trim to run the stream helpers on: strings in
    quotes, arrays of strings, [null]; blanks and line feeds are
    trimmed. *)
Definition render (v : jsval) : option string :=
  match v with
  | JStr s => Some (quoted s)
  | JArr items =>
      Some ("[" +:+
            join_commas (omap (fun x => match x with
                                        | JStr s => Some (quoted s)
                                        | _ => None
                                        end) items) +:+ "]")
  | JNull => Some "null"
  | _ => None
  end.



(** A crawler that reaches the first page only. *)
Definition first_page_only (url : jsval) : result jsval :=
  match Site.page_of_url url with
  | 1 => Ok (Site.html_of 1)
  | _ => Err (Failure 503)
  end.

Fixpoint drop_spaces (s : string) : string :=
  match s with
  | String c rest =>
      if Ascii.eqb c " "%char || Ascii.eqb c (Ascii.ascii_of_nat 10)
      then drop_spaces rest else s
  | EmptyString => EmptyString
  end.

Definition trim_spaces (s : string) : string :=
  String.rev (drop_spaces (String.rev (drop_spaces s))).

(** A per-leaf callback to run the walker on: strings are passed on,
    a number fails with itself as the tag, [null] never calls back and
    everything else gives [undefined]. *)
Definition echo (v : jsval) (k : okey) : list (result jsval) :=
  match v with
  | JStr s => [Ok (JStr s)]
  | JNum n => [Err (Failure (Z.to_nat n))]
  | JNull => []
  | _ => [Ok JUndefined]
  end.

(* ===================================================================== *)
(** ** Induction on values *)
(* ===================================================================== *)

Section JsvalInduction.
Variable P : jsval -> Prop.
Hypothesis P_undefined : P JUndefined.
Hypothesis P_null : P JNull.
Hypothesis P_bool : forall b, P (JBool b).
Hypothesis P_num : forall n, P (JNum n).
Hypothesis P_str : forall s, P (JStr s).
Hypothesis P_fun : forall f, P (JFun f).
Hypothesis P_regexp : forall r, P (JRegExp r).
Hypothesis P_arr : forall items, Forall P items -> P (JArr items).
Hypothesis P_obj : forall c props, Forall (fun kv => P (snd kv)) props -> P (JObj c props).

Fixpoint jsval_nested_ind (v : jsval) : P v :=
  match v with
  | JUndefined => P_undefined
  | JNull => P_null
  | JBool b => P_bool b
  | JNum n => P_num n
  | JStr s => P_str s
  | JFun f => P_fun f
  | JRegExp r => P_regexp r
  | JArr items =>
      P_arr items
        ((fix all (l : list jsval) : Forall P l :=
            match l with
            | [] => Forall_nil P
            | x :: rest => Forall_cons P x rest (jsval_nested_ind x) (all rest)
            end) items)
  | JObj c props =>
      P_obj c props
        ((fix all (l : list (string * jsval)) : Forall (fun kv => P (snd kv)) l :=
            match l with
            | [] => Forall_nil _
            | kv :: rest =>
                Forall_cons (fun kv => P (snd kv)) kv rest
                  (jsval_nested_ind (snd kv)) (all rest)
            end) props)
  end.
End JsvalInduction.

(* ===================================================================== *)
(** ** The walker *)
(* ===================================================================== *)

Section WalkFacts.
Variable isObject : jsval -> bool.
Variable settling : nat -> list nat.
Variable fn : jsval -> okey -> list (result jsval).


Lemma not_plain_of_ctor value :
  ctor_plain value = false -> isPlainObject isObject value = false.
Proof. intros H. unfold isPlainObject. rewrite H. apply andb_false_r. Qed.


Lemma walk_plain c props key :
  isPlainObject isObject (JObj c props) = true ->
  walk isObject settling fn (JObj c props) key =
  assemble (settling (length props)) (walk_children isObject settling fn props).
Proof.
  intros H. cbn [walk]. rewrite H. f_equal. clear H.
  unfold walk_children. induction props as [|[k v] rest IH]; [reflexivity|].
  rewrite map_cons. cbn [fst snd]. rewrite <- IH. reflexivity.
Qed.

Lemma walk_not_plain value key :
  isPlainObject isObject value = false ->
  walk isObject settling fn value key = visit fn value key.
Proof.
  intros H. destruct value; try reflexivity.
  cbn [walk]. rewrite H. reflexivity.
Qed.



End WalkFacts.


(* ===================================================================== *)
(** ** The validator *)
(* ===================================================================== *)

Section ValidateFacts.
Variable cts : validators.

Abbreviation defaulted path :=
  (if bool_decide (path = EmptyString) then "selector" else path).

Lemma validateType_mapping c p ps path :
  validateType cts (JObj c (p :: ps)) path =
  first_invalid (map (fun kv => validateType cts (snd kv)
                                  (defaulted path +:+ "." +:+ fst kv)) (p :: ps)).
Proof.
  destruct p as [key v]. cbn [validateType map first_invalid fst snd].
  destruct (v_valid _); [|reflexivity].
  induction ps as [|[key' v'] rest IH]; [reflexivity|].
  cbn [map first_invalid fst snd]. rewrite <- IH. reflexivity.
Qed.

(** The error of the validator names the key it stopped at: for a mapping
    whose first invalid property is a number or a boolean that no custom
    type takes, the message is that of an unsupported type at
    [path.key], and the type is the [typeof] of the value. *)
Lemma validator_names_the_offending_key c pre key v rest path :
  Forall (fun kv => v_valid (validateType cts (snd kv)
                               (defaulted path +:+ "." +:+ fst kv)) = true) pre ->
  (exists b, v = JBool b) \/ (exists n, v = JNum n) ->
  custom_match cts v = None ->
  validateType cts (JObj c (pre ++ (key, v) :: rest)) path =
  invalid_as (typeof v) (unsupported_msg (defaulted path +:+ "." +:+ key) v).
Proof.
  intros Hpre Hv Hcustom.
  assert (Hleaf : forall p, p <> EmptyString ->
             validateType cts v p = invalid_as (typeof v) (unsupported_msg p v)).
  { intros p Hp. destruct Hv as [[b ->]|[n ->]]; cbn [validateType];
      rewrite Hcustom, bool_decide_eq_false_2 by exact Hp; reflexivity. }
  assert (Hne : defaulted path +:+ "." +:+ key <> EmptyString).
  { destruct (bool_decide (path = EmptyString)) eqn:E.
    - discriminate.
    - apply bool_decide_eq_false in E. destruct path; [congruence|discriminate]. }
  destruct pre as [|p0 pre'].
  - cbn [app]. rewrite validateType_mapping. cbn [map first_invalid fst snd].
    rewrite (Hleaf _ Hne). reflexivity.
  - cbn [app]. rewrite validateType_mapping.
    change (p0 :: pre' ++ (key, v) :: rest) with ((p0 :: pre') ++ (key, v) :: rest).
    induction Hpre as [|kv l Hkv Hl IH].
    + cbn [app map first_invalid fst snd]. rewrite (Hleaf _ Hne). reflexivity.
    + cbn [app map first_invalid]. rewrite Hkv. exact IH.
Qed.

End ValidateFacts.

(* ===================================================================== *)
(** ** Assembling a mapping *)
(* ===================================================================== *)










Lemma fold_child_settled children b :
  Forall (fun kw => exists value, walk_done (snd kw) = Some (Ok value)) children ->
  batch_err b = None ->
  batch_err (fold_left child_step children b) = None /\
  batch_left (fold_left child_step children b)
    = (batch_left b - Z.of_nat (length children))%Z.
Proof.
  intros Hall. revert b. induction Hall as [|[k w] rest [value Hw] _ IH];
    intros b He; [split; [assumption|cbn; lia]|].
  cbn [snd] in Hw. cbn [fold_left].
  assert (Hstep : batch_err (child_step b (k, w)) = None /\
                  batch_left (child_step b (k, w)) = (batch_left b - 1)%Z).
  { unfold child_step, child_done. cbn [fst snd]. rewrite He, Hw. split; reflexivity. }
  destruct Hstep as [He' Hl']. destruct (IH _ He') as [He'' Hl''].
  split; [exact He''|]. rewrite Hl'', Hl'. cbn [length]. lia.
Qed.

(** *** The order in which the children are done *)

Lemma in_order_from {A : Type} (pre l : list A) :
  in_order (seq (length pre) (length l)) (pre ++ l) = l.
Proof.
  revert pre. induction l as [|x l IH]; intros pre; [reflexivity|].
  cbn [length seq]. unfold in_order in *. cbn [omap list_omap].
  rewrite list_lookup_middle by reflexivity. f_equal.
  specialize (IH (pre ++ [x])). rewrite length_app in IH. cbn [length] in IH.
  rewrite Nat.add_1_r, <- app_assoc in IH. exact IH.
Qed.

Lemma in_order_permutation {A : Type} (completion : list nat) (l : list A) :
  Permutation completion (seq 0 (length l)) ->
  Permutation (in_order completion l) l.
Proof.
  intros Hperm. unfold in_order. rewrite Hperm.
  pose proof (in_order_from [] l) as Hseq. unfold in_order in Hseq.
  cbn [length app] in Hseq. rewrite Hseq. reflexivity.
Qed.


(* ===================================================================== *)
(** ** Sequences of mappings *)
(* ===================================================================== *)

Lemma js_array_set_same out i obj : js_array_set out i obj !! i = Some obj.
Proof.
  unfold js_array_set. destruct (decide (i < length out)%nat) as [Hlt|Hge].
  - apply list_lookup_insert_eq, Hlt.
  - rewrite lookup_app_r by lia.
    rewrite lookup_app_r by (rewrite length_replicate; lia).
    rewrite length_replicate. replace (i - length out - (i - length out))%nat with 0%nat by lia.
    reflexivity.
Qed.

Lemma js_array_set_other out i j obj :
  j <> i -> (j < length out)%nat -> js_array_set out i obj !! j = out !! j.
Proof.
  intros Hne Hj. unfold js_array_set.
  destruct (decide (i < length out)%nat) as [Hlt|Hge].
  - apply list_lookup_insert_ne. congruence.
  - apply lookup_app_l, Hj.
Qed.

Lemma js_array_set_length out i obj :
  length (js_array_set out i obj) = Nat.max (length out) (S i).
Proof.
  unfold js_array_set. destruct (decide (i < length out)%nat) as [Hlt|Hge].
  - rewrite length_insert. lia.
  - rewrite !length_app, length_replicate. cbn [length]. lia.
Qed.

Section SequenceFacts.
Variable compact : list jsval -> list jsval.
Variable objs : list jsval.

Abbreviation sub := (map (@Ok jsval) objs).
Abbreviation start :=
  {| seq_out := []; seq_pending := Z.of_nat (length objs); seq_calls := [] |}.

Lemma bounded_nodup_length (l : list nat) n :
  List.NoDup l -> (forall i, In i l -> (i < n)%nat) -> (length l <= n)%nat.
Proof.
  intros Hnd Hlt. rewrite <- (length_seq n 0).
  apply NoDup_incl_length; [exact Hnd|].
  intros i Hi. apply in_seq. specialize (Hlt i Hi). lia.
Qed.

Lemma seq_inv_fold (finished : list nat) :
  objs <> [] ->
  List.NoDup finished ->
  (forall i, In i finished -> (i < length objs)%nat) ->
  seq_inv compact objs finished (fold_left (element_done compact sub) finished start).
Proof.
  intros Hne. induction finished as [|x l IH] using rev_ind; intros Hnd Hlt.
  - cbn [fold_left]. constructor; cbn [seq_pending seq_calls seq_out length].
    + lia.
    + destruct objs; [congruence|]. cbn [length].
      destruct (decide (0 < S (length l))%nat); [reflexivity|lia].
    + intros i [].
    + lia.
  - apply NoDup_app_remove_r in Hnd as Hnd_l.
    assert (Hx : ~ In x l).
    { intros Hin. apply NoDup_remove_2 in Hnd. rewrite app_nil_r in Hnd. tauto. }
    assert (Hlt_l : forall i, In i l -> (i < length objs)%nat).
    { intros i Hi. apply Hlt, in_or_app. left. exact Hi. }
    assert (Hxn : (x < length objs)%nat).
    { apply Hlt, in_or_app. right. left. reflexivity. }
    specialize (IH Hnd_l Hlt_l). destruct IH as [Hp Hc Ho Hl].
    assert (Hlen : (length (l ++ [x]) <= length objs)%nat)
      by (apply bounded_nodup_length; assumption).
    rewrite length_app in Hlen. cbn [length] in Hlen.
    rewrite fold_left_app. cbn [fold_left].
    set (s := fold_left (element_done compact sub) l start) in *.
    destruct (lookup_lt_is_Some_2 objs x Hxn) as [obj Hobj].
    unfold element_done. rewrite list_lookup_fmap, Hobj. cbn [fmap option_fmap option_map].
    constructor; cbn [seq_pending seq_calls seq_out].
    + rewrite Hp, length_app. cbn [length]. lia.
    + rewrite Hc, Hp, length_app. cbn [length].
      destruct (decide (length l < length objs)%nat); [|lia].
      cbn [app].
      destruct (decide (length l + 1 < length objs)%nat).
      * rewrite (proj2 (Z.eqb_neq _ _)) by lia. reflexivity.
      * rewrite (proj2 (Z.eqb_eq _ _)) by lia. reflexivity.
    + intros i Hi. apply in_app_or in Hi as [Hi | [<- | []]].
      * assert (i <> x) by congruence.
        rewrite js_array_set_other; [apply Ho, Hi|assumption|].
        apply lookup_lt_is_Some. rewrite (Ho i Hi).
        apply lookup_lt_is_Some_2, Hlt_l, Hi.
      * rewrite js_array_set_same. symmetry. exact Hobj.
    + rewrite js_array_set_length. lia.
Qed.

Lemma walk_elements_all_ok (completion : list nat) :
  objs <> [] ->
  Permutation completion (seq 0 (length objs)) ->
  walk_elements compact completion sub = [Ok (JArr (compact objs))].
Proof.
  intros Hne Hperm.
  assert (Hnd : List.NoDup completion).
  { eapply Permutation_NoDup; [symmetry; exact Hperm|apply seq_NoDup]. }
  assert (Hlt : forall i, In i completion -> (i < length objs)%nat).
  { intros i Hi. eapply Permutation_in in Hi; [|exact Hperm].
    apply in_seq in Hi. lia. }
  unfold walk_elements.
  destruct (map Ok objs) as [|r rs] eqn:Esub.
  { destruct objs; [congruence|discriminate]. }
  rewrite <- Esub, length_map. clear Esub r rs.
  destruct (seq_inv_fold completion Hne Hnd Hlt) as [_ Hc Ho Hl].
  pose proof (Permutation_length Hperm) as Hsize. rewrite length_seq in Hsize.
  destruct (decide (length completion < length objs)%nat); [lia|].
  set (s := fold_left (element_done compact sub) completion start) in *.
  assert (Hall : forall i, (i < length objs)%nat -> seq_out s !! i = objs !! i).
  { intros i Hi. apply Ho. eapply Permutation_in; [symmetry; exact Hperm|].
    apply in_seq. lia. }
  assert (Hlen : length (seq_out s) = length objs).
  { apply Nat.le_antisymm; [exact Hl|].
    assert (Hpos : (0 < length objs)%nat) by (destruct objs; [congruence|cbn; lia]).
    assert (Hlast : is_Some (seq_out s !! (length objs - 1)%nat)).
    { rewrite Hall by lia. apply lookup_lt_is_Some_2. lia. }
    apply lookup_lt_is_Some in Hlast. lia. }
  assert (Hout : seq_out s = objs).
  { apply list_eq. intros i. destruct (decide (i < length objs)%nat).
    - apply Hall. assumption.
    - rewrite !lookup_ge_None_2 by lia. reflexivity. }
  rewrite Hc, Hout. reflexivity.
Qed.

End SequenceFacts.

(* ===================================================================== *)
(** ** The callback of walkHTML *)
(* ===================================================================== *)

Section WalkHTMLFacts.
Variable doc : Type.
Variable isObject : jsval -> bool.
Variable settling : nat -> list nat.
Variable root : option string -> jsval.
Variable compact : list jsval -> list jsval.
Variable resolve : source doc -> jsval -> jsval -> jsval.
Variable call_function : nat -> doc -> result jsval.
Variable doc_text : doc -> string.
Variable regexp_match : nat -> string -> option (list jsval).
Variable find : doc -> option string -> list doc.
Variable xray : option string -> jsval -> doc -> result jsval.
Variable order : nat -> list nat.
Variable customTypes : list (string * typeConfig doc).
Variable scope : option string.

Abbreviation leaf_in strict :=
  (leaf doc root compact resolve call_function doc_text regexp_match find xray
        order customTypes strict scope).



(** A number or a boolean that no custom type claims is what the validator
    calls an unsupported selector type, and the walker an unknown one. *)
Lemma unsupported_is_unknown v path :
  v_error (validateType (validators_of doc customTypes) v path) =
    Some (unsupported_msg (if bool_decide (path = EmptyString) then "selector" else path) v) ->
  (exists b, v = JBool b) \/ (exists n, v = JNum n) ->
  unknown_type doc customTypes v = true /\ isPlainObject isObject v = false.
Proof.
  intros Herr Hshape. split.
  - assert (Hnone : custom_match (validators_of doc customTypes) v = None).
    { destruct Hshape as [[b ->] | [n ->]]; cbn [validateType] in Herr;
        destruct (custom_match _ _); try reflexivity; discriminate. }
    assert (Hfind : custom_find doc customTypes v = None).
    { clear Herr. unfold validators_of in Hnone.
      induction customTypes as [|[name cfg] rest IH]; [reflexivity|].
      cbn [map custom_match custom_find fst snd] in *.
      destruct (validator doc cfg) as [accepts|]; [|apply IH, Hnone].
      destruct (accepts v); [discriminate|apply IH, Hnone]. }
    destruct Hshape as [[b ->] | [n ->]]; unfold unknown_type; rewrite Hfind;
      reflexivity.
  - apply not_plain_of_ctor. destruct Hshape as [[b ->] | [n ->]]; reflexivity.
Qed.


(** C7.  For a sequence of mappings: when the scope matches nothing the
    callback passes on the empty list, and no error; when it matches
    elements whose sub-walks all succeed, it passes on once, whatever the
    order in which the sub-walks call back, the compacted list of their
    results in the order [find] lists the elements, the document order:
    each result is stored at the index of its element. *)
Theorem sequence_of_mappings_in_document_order :
  forall (strict : bool) (ctx : doc) (v : jsval) (k : okey) (objs : list jsval),
    isArray v = true ->
    typeof_is (index0 v) "object" = true ->
    custom_find doc customTypes v = None ->
    map (xray scope (index0 v)) (find ctx scope) = map Ok objs ->
    Permutation (order (length objs)) (seq 0 (length objs)) ->
    leaf_in strict ctx v k =
      [Ok (JArr (match objs with [] => [] | _ => compact objs end))] /\
    walk_done (walk isObject settling (leaf_in strict ctx) v k) =
      Some (Ok (JArr (match objs with [] => [] | _ => compact objs end))).
Proof.
  intros strict ctx v k objs Harr Hobj Hcustom Hsub Hperm.
  cut (leaf_in strict ctx v k =
         [Ok (JArr (match objs with [] => [] | _ => compact objs end))]).
  { intros Hleaf. split; [exact Hleaf|].
    rewrite walk_not_plain by (apply not_plain_of_ctor; destruct v; try discriminate;
                               reflexivity).
    cbn [visit walk_done]. rewrite Hleaf. reflexivity. }
  assert (Hleaf : leaf_in strict ctx v k =
                  walk_elements compact (order (length (find ctx scope)))
                    (map (xray scope (index0 v)) (find ctx scope))).
  { destruct v; try discriminate.
    unfold leaf. rewrite Hcustom. unfold leaf_array_or_unknown.
    rewrite Harr, Hobj. cbn [andb].
    assert (Hstr : typeof_is (index0 (JArr items)) "string" = false).
    { unfold typeof_is in *. apply bool_decide_eq_true in Hobj.
      apply bool_decide_eq_false_2. rewrite Hobj. discriminate. }
    rewrite Hstr. reflexivity. }
  rewrite Hleaf.
  assert (Hlen : length (find ctx scope) = length objs).
  { rewrite <- (length_map (xray scope (index0 v))), Hsub. apply length_map. }
  rewrite Hlen, Hsub. destruct objs as [|o rest] eqn:E.
  - reflexivity.
  - rewrite <- E in *. rewrite walk_elements_all_ok.
    + reflexivity.
    + rewrite E. discriminate.
    + exact Hperm.
Qed.

End WalkHTMLFacts.

Lemma sequence_of_mappings_in_document_order_witness :
  let v := JArr [JObj CtorObject [("title", JStr "h1")]] in
  let objs := [JObj CtorObject [("title", JStr "a")];
               JObj CtorObject [("title", JStr "b")];
               JObj CtorObject [("title", JStr "c")]] in
  Site.order 3 = [2; 1; 0]%nat /\
  Permutation (Site.order (length objs)) (seq 0 (length objs)) /\
  leaf Site.page Site.root Site.compact Site.resolve Site.call_function
       Site.doc_text Site.regexp_match Site.find Site.xray Site.order
       Site.customTypes false (Some "li") 1%nat v (Some "items")
    = [Ok (JArr objs)].
Proof.
  intros v objs.
  assert (Hperm : Permutation (Site.order (length objs)) (seq 0 (length objs))).
  { unfold Site.order. symmetry. apply Permutation_rev. }
  split; [reflexivity|]. split; [exact Hperm|].
  exact (proj1 (sequence_of_mappings_in_document_order
                  Site.page Site.isObject Site.settling Site.root Site.compact
                  Site.resolve Site.call_function Site.doc_text Site.regexp_match Site.find
                  Site.xray Site.order Site.customTypes (Some "li")
                  false 1%nat v (Some "items") objs
                  eq_refl eq_refl eq_refl eq_refl Hperm)).
Defined.

(* ===================================================================== *)
(** ** The pagination cycle *)
(* ===================================================================== *)

Section TraceFacts.
Context {doc : Type}.

Lemma reports_app (a b : list (event doc)) : reports (a ++ b) = reports a ++ reports b.
Proof.
  induction a as [|e a IH]; [reflexivity|].
  destruct e; cbn [app reports]; rewrite IH; reflexivity.
Qed.

Lemma requested_app (a b : list (event doc)) :
  requested (a ++ b) = requested a ++ requested b.
Proof.
  induction a as [|e a IH]; [reflexivity|].
  destruct e; cbn [app requested]; rewrite IH; reflexivity.
Qed.

Lemma streamed_app (a b : list (event doc)) :
  streamed (a ++ b) = streamed a ++ streamed b.
Proof.
  induction a as [|e a IH]; [reflexivity|].
  destruct e; cbn [app streamed]; rewrite IH; reflexivity.
Qed.


Lemma abort_calls_app (a b : list (event doc)) :
  abort_calls (a ++ b) = abort_calls a ++ abort_calls b.
Proof.
  induction a as [|e a IH]; [reflexivity|].
  destruct e; cbn [app abort_calls]; rewrite IH; reflexivity.
Qed.

End TraceFacts.

Section PaginationFacts.
Variable doc : Type.
Variable isObject : jsval -> bool.
Variable isUrl : jsval -> bool.
Variable settling : nat -> list nat.
Variable root : option string -> jsval.
Variable compact : list jsval -> list jsval.
Variable resolve : source doc -> jsval -> jsval -> jsval.
Variable call_function : nat -> doc -> result jsval.
Variable doc_text : doc -> string.
Variable regexp_match : nat -> string -> option (list jsval).
Variable find : doc -> option string -> list doc.
Variable xray : option string -> jsval -> doc -> result jsval.
Variable order : nat -> list nat.
Variable request : jsval -> result jsval.
Variable load : source doc -> option jsval -> doc.
Variable customTypes : list (string * typeConfig doc).
Variable strictMode : bool.
Variable selector : jsval.
Variable scope : option string.
(** [JSON.stringify] as the stream helper calls it, and whether the
    helper was made with a stream. *)
Variable stringify : jsval -> option string.
Variable attached : bool.

Abbreviation walkHTML_ :=
  (walkHTML doc isObject settling root compact resolve call_function doc_text regexp_match
            find xray order customTypes strictMode selector scope).
Abbreviation next_ := (next doc isUrl resolve).
Abbreviation fetch_ :=
  (fetch doc isObject settling root compact resolve call_function doc_text regexp_match
         find xray order request load customTypes strictMode selector scope).
Abbreviation open_local_ :=
  (open_local doc isObject settling root compact resolve call_function doc_text regexp_match
              find xray order load customTypes strictMode selector scope).
Abbreviation cycle_ :=
  (cycle doc isObject isUrl settling root compact resolve call_function doc_text regexp_match
         find xray order request load customTypes strictMode selector scope).
Abbreviation node_ :=
  (node doc isObject isUrl settling root compact resolve call_function doc_text regexp_match
        find xray order request load customTypes strictMode selector scope).
Abbreviation first_page_ :=
  (first_page doc isObject isUrl settling root compact resolve call_function doc_text
              regexp_match find xray order request load customTypes strictMode
              selector scope).
Abbreviation next_url st ctx := (resolve (SrcDoc ctx) (JBool false) (st_paginate st)).

(** *** What one call of [next] does *)

Lemma next_error st err : next_ st (SigErr err) = (st, [EvReport (Err err)], None).
Proof. reflexivity. Qed.

(** The three parts of a call of [next] on a page, case by case. *)
Lemma next_page st obj ctx :
  next_ st (SigOk obj ctx) =
  if truthy (st_paginate st) then
    let st' := {| st_paginate := st_paginate st; st_limit := lim_pred (st_limit st);
                  st_abort := st_abort st;
                  st_pages := accumulate (st_pages st) obj;
                  st_stream := Some (default ArrayStream (st_stream st)) |} in
    if lim_le0 (lim_pred (st_limit st)) || negb (isUrl (next_url st ctx)) then
      (st', [EvStream obj true; EvReport (Ok (JArr (accumulate (st_pages st) obj)))], None)
    else
      match st_abort st with
      | Some abort =>
          if abort obj (next_url st ctx) then
            (st', [EvAbort obj (next_url st ctx) true; EvStream obj true;
                   EvReport (Ok (JArr (accumulate (st_pages st) obj)))], None)
          else (st', [EvAbort obj (next_url st ctx) false; EvStream obj false],
                Some (next_url st ctx))
      | None => (st', [EvStream obj false], Some (next_url st ctx))
      end
  else
    ({| st_paginate := st_paginate st; st_limit := lim_pred (st_limit st);
        st_abort := st_abort st; st_pages := st_pages st;
        st_stream := Some (default ObjectStream (st_stream st)) |},
     [EvStream obj true; EvReport (Ok obj)], None).
Proof.
  unfold next, accumulate. destruct (truthy (st_paginate st)) eqn:Hp.
  - destruct (st_stream st); cbn [default];
      destruct (lim_le0 (lim_pred (st_limit st))); cbn [orb]; try reflexivity;
      destruct (isUrl _); cbn [negb]; reflexivity.
  - destruct (st_stream st); reflexivity.
Qed.

Lemma next_keeps_paginate st sig :
  st_paginate (fst (fst (next_ st sig))) = st_paginate st.
Proof.
  destruct sig as [err|obj ctx]; [reflexivity|]. rewrite next_page.
  destruct (truthy _); [|reflexivity].
  destruct (_ || _); [reflexivity|].
  destruct (st_abort st) as [abort|]; [|reflexivity].
  destruct (abort _ _); reflexivity.
Qed.

(** A call of [next] reports once when it ends the run and not at all
    when it goes on to request a page. *)
Lemma next_reports st sig :
  match snd (next_ st sig) with
  | None => exists evs r, snd (fst (next_ st sig)) = evs ++ [EvReport r] /\ reports evs = []
  | Some _ => reports (snd (fst (next_ st sig))) = []
  end.
Proof.
  destruct sig as [err|obj ctx].
  - exists [], (Err err). split; reflexivity.
  - rewrite next_page. destruct (truthy _).
    + destruct (_ || _).
      * exists [EvStream obj true]. eexists. split; reflexivity.
      * destruct (st_abort st) as [abort|]; [|reflexivity].
        destruct (abort _ _); [|reflexivity].
        exists [EvAbort obj (next_url st ctx) true; EvStream obj true]. eexists.
        split; reflexivity.
    + exists [EvStream obj true]. eexists. split; reflexivity.
Qed.

(** *** Requests and walks report nothing themselves *)

Lemma walkHTML_events ctx :
  reports (fst (walkHTML_ ctx)) = [] /\ requested (fst (walkHTML_ ctx)) = [] /\
  streamed (fst (walkHTML_ ctx)) = [] /\ abort_calls (fst (walkHTML_ ctx)) = [].
Proof.
  unfold walkHTML. destruct strictMode.
  - destruct (assertValidType _ _ _); repeat split; reflexivity.
  - repeat split; reflexivity.
Qed.

Lemma fetch_events url :
  reports (fst (fetch_ url)) = [] /\ requested (fst (fetch_ url)) = [url] /\
  streamed (fst (fetch_ url)) = [] /\ abort_calls (fst (fetch_ url)) = [].
Proof.
  unfold fetch. destruct (request url) as [html|err]; [|repeat split; reflexivity].
  destruct (walkHTML_events (load (SrcVal html) (Some url))) as (H1 & H2 & H3 & H4).
  destruct (walkHTML_ _) as [evs sig]. cbn [fst] in *.
  cbn [reports requested streamed abort_calls]. rewrite H1, H2, H3, H4.
  repeat split; reflexivity.
Qed.

Lemma open_local_events html :
  reports (fst (open_local_ html)) = [] /\ requested (fst (open_local_ html)) = [] /\
  streamed (fst (open_local_ html)) = [] /\ abort_calls (fst (open_local_ html)) = [].
Proof.
  unfold open_local.
  destruct (walkHTML_events (load html None)) as (H1 & H2 & H3 & H4).
  destruct (walkHTML_ _) as [evs sig]. cbn [fst] in *.
  cbn [reports requested streamed abort_calls]. rewrite H1, H2, H3, H4.
  repeat split; reflexivity.
Qed.

Lemma cycle_step fuel st sig :
  cycle_ (S fuel) st (Some sig) =
  match snd (next_ st sig) with
  | None => (snd (fst (next_ st sig)), Finished)
  | Some url =>
      (snd (fst (next_ st sig)) ++ fst (fetch_ url) ++
         fst (cycle_ fuel (fst (fst (next_ st sig))) (snd (fetch_ url))),
       snd (cycle_ fuel (fst (fst (next_ st sig))) (snd (fetch_ url))))
  end.
Proof.
  cbn [cycle]. destruct (next_ st sig) as [[st' evs] [url|]]; [|reflexivity].
  cbn [fst snd]. destruct (fetch_ url) as [evs1 sig'].
  cbn [fst snd]. destruct (cycle_ fuel st' sig') as [evs2 s]. reflexivity.
Qed.

Lemma cycle_zero st sig :
  cycle_ 0 st (Some sig) =
  (snd (fst (next_ st sig)),
   match snd (next_ st sig) with None => Finished | Some _ => OutOfFuel end).
Proof.
  cbn [cycle]. destruct (next_ st sig) as [[st' evs] [url|]]; reflexivity.
Qed.

Lemma cycle_stalled fuel st : cycle_ fuel st None = ([], Stalled).
Proof. destruct fuel; reflexivity. Qed.

(** A pagination cycle ends on its one report, or has made none. *)
Lemma cycle_reports fuel st sig :
  match snd (cycle_ fuel st sig) with
  | Finished =>
      exists tr r, fst (cycle_ fuel st sig) = tr ++ [EvReport r] /\ reports tr = []
  | _ => reports (fst (cycle_ fuel st sig)) = []
  end.
Proof.
  revert st sig. induction fuel as [|fuel IH]; intros st [sig|];
    try (rewrite cycle_stalled; reflexivity).
  - rewrite cycle_zero. cbn [fst snd]. pose proof (next_reports st sig) as H.
    destruct (snd (next_ st sig)); exact H.
  - rewrite cycle_step. pose proof (next_reports st sig) as H.
    destruct (snd (next_ st sig)) as [url|]; cbn [fst snd]; [|exact H].
    specialize (IH (fst (fst (next_ st sig))) (snd (fetch_ url))).
    destruct (fetch_events url) as (Hf & _).
    destruct (snd (cycle_ fuel _ _)).
    + destruct IH as (tr & r & -> & Htr).
      exists (snd (fst (next_ st sig)) ++ fst (fetch_ url) ++ tr), r.
      split; [rewrite <- !app_assoc; reflexivity|].
      rewrite !reports_app, H, Hf, Htr. reflexivity.
    + rewrite !reports_app, H, Hf, IH. reflexivity.
    + rewrite !reports_app, H, Hf, IH. reflexivity.
Qed.

Lemma first_page_events src :
  reports (fst (first_page_ src)) = [] /\ streamed (fst (first_page_ src)) = [] /\
  abort_calls (fst (first_page_ src)) = [].
Proof.
  unfold first_page.
  destruct (source_url _ _) as [url|];
    [destruct (fetch_events url) as (? & ? & ? & ?); auto|].
  destruct (scope_has_at scope).
  - destruct (negb _).
    + destruct (open_local_events empty_html) as (? & ? & ? & ?); auto.
    + destruct (fetch_events (resolve src (JBool false)
                                (JStr (default EmptyString scope)))) as (? & ? & ? & ?); auto.
  - destruct (source_truthy _ _).
    + destruct (open_local_events src) as (? & ? & ? & ?); auto.
    + destruct (open_local_events empty_html) as (? & ? & ? & ?); auto.
Qed.

Lemma node_unfold fuel st src :
  node_ fuel st src =
  (fst (first_page_ src) ++ fst (cycle_ fuel st (snd (first_page_ src))),
   snd (cycle_ fuel st (snd (first_page_ src)))).
Proof. unfold node. destruct (cycle_ _ _ _). reflexivity. Qed.

(** A run with a finite limit [n] needs no more than [n - 1] requests
    after its first page to come to an end. *)
Lemma cycle_finite_limit_ends fuel st sig n :
  st_limit st = Finite n ->
  (Z.to_nat (n - 1) <= fuel)%nat ->
  snd (cycle_ fuel st sig) <> OutOfFuel.
Proof.
  revert st sig n. induction fuel as [|fuel IH]; intros st [sig|] n Hlim Hfuel;
    try (rewrite cycle_stalled; discriminate).
  - rewrite cycle_zero. cbn [snd].
    destruct (snd (next_ st sig)) as [url|] eqn:Hc; [|discriminate].
    destruct sig as [err|obj ctx]; [discriminate|].
    rewrite next_page in Hc. destruct (truthy _); [|discriminate].
    rewrite Hlim in Hc. cbn [lim_pred lim_le0] in Hc.
    rewrite (proj2 (Z.leb_le (n - 1) 0)) in Hc by lia. discriminate.
  - rewrite cycle_step.
    destruct (snd (next_ st sig)) as [url|] eqn:Hc; cbn [snd]; [|discriminate].
    destruct sig as [err|obj ctx]; [discriminate|].
    assert (Hst' : st_limit (fst (fst (next_ st (SigOk obj ctx)))) = Finite (n - 1)
                   /\ (0 < n - 1)%Z).
    { rewrite next_page in *. destruct (truthy _); [|discriminate].
      rewrite Hlim in *. cbn [lim_pred lim_le0] in *.
      destruct (Z.leb (n - 1) 0) eqn:Hle; [discriminate|]. apply Z.leb_gt in Hle.
      cbn [orb] in *. destruct (negb _); [discriminate|].
      destruct (st_abort st) as [abort|]; [destruct (abort _ _); [discriminate|]|];
        split; [reflexivity|exact Hle|reflexivity|exact Hle]. }
    destruct Hst' as [Hst' Hpos]. apply (IH _ _ (n - 1)%Z); [exact Hst'|lia].
Qed.

(** C1, as the code has it.  In a run in which every request and every
    walk calls back once and every call of the stream helper returns,
    the report is delivered exactly once, as the last event, when the
    run reaches one of the terminal branches of [next], and not at all
    as long as it has not.  [next] itself keeps no completion token:
    called with an error, it reports it in whatever state the run is.  A
    run with a finite limit does reach a terminal branch, unless a walk
    never calls back. *)
Theorem report_once_when_signalled_once :
  forall (fuel : nat) (st : state) (src : source doc),
    stream_returns stringify attached st (fst (node_ fuel st src)) ->
    match snd (node_ fuel st src) with
    | Finished =>
        exists tr r, fst (node_ fuel st src) = tr ++ [EvReport r] /\ reports tr = []
    | _ => reports (fst (node_ fuel st src)) = []
    end /\
    (forall st' err, reports (snd (fst (next_ st' (SigErr err)))) = [Err err]) /\
    match st_limit st with
    | Finite n => (Z.to_nat (n - 1) <= fuel)%nat -> snd (node_ fuel st src) <> OutOfFuel
    | Infinity => True
    end.
Proof.
  intros fuel st src _. split; [|split; [reflexivity|]].
  2: { destruct (st_limit st) as [n|] eqn:Hlim; [|exact I].
       intros Hfuel. rewrite node_unfold. cbn [snd].
       eapply cycle_finite_limit_ends; eassumption. }
  rewrite node_unfold. cbn [fst snd].
  pose proof (cycle_reports fuel st (snd (first_page_ src))) as H.
  destruct (first_page_events src) as (Hf & _).
  destruct (snd (cycle_ fuel st _)).
  - destruct H as (tr & r & -> & Htr).
    exists (fst (first_page_ src) ++ tr), r.
    split; [rewrite <- app_assoc; reflexivity|].
    rewrite reports_app, Hf, Htr. reflexivity.
  - rewrite reports_app, Hf, H. reflexivity.
  - rewrite reports_app, Hf, H. reflexivity.
Qed.

(** *** What is reported *)

Lemma accumulate_non_arrays pages objs :
  Forall (fun o => isArray o = false) objs ->
  fold_left accumulate objs pages = pages ++ objs.
Proof.
  revert pages. induction objs as [|o rest IH]; intros pages Hall.
  - cbn. rewrite app_nil_r. reflexivity.
  - inversion Hall as [|? ? Ho Hrest]; subst. cbn [fold_left].
    rewrite IH by exact Hrest. unfold accumulate, js_push. rewrite Ho.
    rewrite <- app_assoc. reflexivity.
Qed.

(** What [next] does to [pages], spelt out. *)
Lemma accumulate_items pages obj : accumulate pages obj = pages ++ page_items obj.
Proof. destruct obj; reflexivity. Qed.

Lemma next_streams st obj ctx :
  streamed (snd (fst (next_ st (SigOk obj ctx)))) = [obj].
Proof.
  rewrite next_page. destruct (truthy _); [|reflexivity].
  destruct (_ || _); [reflexivity|].
  destruct (st_abort st) as [abort|]; [|reflexivity].
  destruct (abort _ _); reflexivity.
Qed.

Lemma next_pages st obj ctx :
  truthy (st_paginate st) = true ->
  st_pages (fst (fst (next_ st (SigOk obj ctx)))) = accumulate (st_pages st) obj.
Proof.
  intros Hp. rewrite next_page, Hp.
  destruct (_ || _); [reflexivity|].
  destruct (st_abort st) as [abort|]; [|reflexivity].
  destruct (abort _ _); reflexivity.
Qed.

Lemma next_reported st obj ctx v :
  truthy (st_paginate st) = true ->
  In (Ok v) (reports (snd (fst (next_ st (SigOk obj ctx))))) ->
  v = JArr (accumulate (st_pages st) obj).
Proof.
  intros Hp. rewrite next_page, Hp.
  destruct (_ || _).
  - cbn. intros [[= <-]|[]]. reflexivity.
  - destruct (st_abort st) as [abort|]; [|intros []].
    destruct (abort _ _); [|intros []].
    cbn. intros [[= <-]|[]]. reflexivity.
Qed.

(** With pagination on, the value reported is [pages]: what the values
    of the pages, in the order they were streamed, have been accumulated
    to. *)
Lemma cycle_reports_pages fuel st sig v :
  truthy (st_paginate st) = true ->
  In (Ok v) (reports (fst (cycle_ fuel st sig))) ->
  v = JArr (fold_left accumulate (streamed (fst (cycle_ fuel st sig))) (st_pages st)).
Proof.
  revert st sig. induction fuel as [|fuel IH]; intros st [sig|] Hp;
    try (rewrite cycle_stalled; intros []).
  - rewrite cycle_zero. cbn [fst]. destruct sig as [err|obj ctx].
    + cbn. intros [[=]|[]].
    + rewrite next_streams. cbn [fold_left]. apply next_reported, Hp.
  - rewrite cycle_step. destruct sig as [err|obj ctx].
    + cbn. intros [[=]|[]].
    + pose proof (next_reported st obj ctx v Hp) as Hrep.
      pose proof (next_reports st (SigOk obj ctx)) as Hnone.
      destruct (snd (next_ st (SigOk obj ctx))) as [url|]; cbn [fst snd].
      * destruct (fetch_events url) as (Hf & _ & Hs & _).
        rewrite !reports_app, !streamed_app, Hnone, Hf, Hs, next_streams.
        cbn [app fold_left]. intros Hin.
        rewrite <- (next_pages st obj ctx Hp). apply IH; [|exact Hin].
        rewrite next_keeps_paginate. exact Hp.
      * rewrite next_streams. cbn [fold_left]. exact Hrep.
Qed.

(** The write that closes the stream carries the value of the page the
    run ends on. *)
Lemma closing_write_is_the_latest_page st obj ctx :
  snd (next_ st (SigOk obj ctx)) = None ->
  In (EvStream obj true) (snd (fst (next_ st (SigOk obj ctx)))).
Proof.
  rewrite next_page. destruct (truthy _); [|intros _; left; reflexivity].
  destruct (_ || _); [intros _; left; reflexivity|].
  destruct (st_abort st) as [abort|]; [|discriminate].
  destruct (abort _ _); [intros _; right; left; reflexivity|discriminate].
Qed.

(** C4, as the code has it.  With pagination on and page values that are
    not arrays, the value reported is the buffer itself: the array of the
    values of all the pages walked, in page order (after whatever [pages]
    held before the run, nothing in a fresh one). *)
Theorem paginated_report_is_the_page_buffer :
  forall (fuel : nat) (st : state) (src : source doc) (v : jsval),
    truthy (st_paginate st) = true ->
    Forall (fun o => isArray o = false) (streamed (fst (node_ fuel st src))) ->
    In (Ok v) (reports (fst (node_ fuel st src))) ->
    v = JArr (st_pages st ++ streamed (fst (node_ fuel st src))).
Proof.
  intros fuel st src v Hp Hall Hin.
  rewrite node_unfold in *. cbn [fst] in *.
  destruct (first_page_events src) as (Hr & Hs & _).
  rewrite reports_app, Hr in Hin. rewrite streamed_app, Hs in *. cbn [app] in *.
  rewrite <- accumulate_non_arrays by exact Hall.
  apply cycle_reports_pages; assumption.
Qed.

(** *** The abort predicate and the next-page target *)

(** The predicate is not consulted on a page that reaches the limit or
    whose next-page target does not resolve. *)
Lemma abort_not_called_at_the_end st obj ctx :
  lim_le0 (lim_pred (st_limit st)) || negb (isUrl (next_url st ctx)) = true ->
  abort_calls (snd (fst (next_ st (SigOk obj ctx)))) = [].
Proof.
  intros H. rewrite next_page, H. destruct (truthy _); reflexivity.
Qed.

(** *** The page limit *)

Lemma next_quiet st sig :
  requested (snd (fst (next_ st sig))) = [] /\
  walked_docs (snd (fst (next_ st sig))) = [].
Proof.
  destruct sig as [err|obj ctx]; [split; reflexivity|].
  rewrite next_page. destruct (truthy _); [|split; reflexivity].
  destruct (_ || _); [split; reflexivity|].
  destruct (st_abort st) as [abort|]; [|split; reflexivity].
  destruct (abort _ _); split; reflexivity.
Qed.








(** C5, as the code has it.  With an abort predicate configured and the
    write of the page to the stream returning: on a page that reaches
    the limit or whose next-page target does not resolve to a URL the
    predicate is not called, and the run ends reporting the pages; on
    any other page the predicate is called once, with the value of the
    page just walked, not the pages, and the URL found; when it returns
    true the run ends there, reporting the pages, and nothing is
    requested; when it returns false nothing is reported and the URL is
    the next thing requested. *)
Theorem abort_sees_current_page_and_next_url :
  forall (fuel : nat) (st : state) (obj : jsval) (ctx : doc)
         (abort : jsval -> jsval -> bool),
    truthy (st_paginate st) = true ->
    st_abort st = Some abort ->
    write_returns stringify attached obj = true ->
    if lim_le0 (lim_pred (st_limit st)) || negb (isUrl (next_url st ctx)) then
      abort_calls (snd (fst (next_ st (SigOk obj ctx)))) = [] /\
      cycle_ fuel st (Some (SigOk obj ctx)) =
        ([EvStream obj true; EvReport (Ok (JArr (st_pages st ++ page_items obj)))],
         Finished)
    else
      abort_calls (snd (fst (next_ st (SigOk obj ctx)))) = [(obj, next_url st ctx)] /\
      if abort obj (next_url st ctx) then
        cycle_ fuel st (Some (SigOk obj ctx)) =
          ([EvAbort obj (next_url st ctx) true; EvStream obj true;
            EvReport (Ok (JArr (st_pages st ++ page_items obj)))],
           Finished)
      else
        snd (next_ st (SigOk obj ctx)) = Some (next_url st ctx) /\
        reports (snd (fst (next_ st (SigOk obj ctx)))) = [] /\
        exists rest,
          requested (fst (cycle_ (S fuel) st (Some (SigOk obj ctx)))) =
            next_url st ctx :: rest.
Proof.
  intros fuel st obj ctx abort Hp Habort _. rewrite <- accumulate_items.
  pose proof (next_page st obj ctx) as Hnext. rewrite Hp, Habort in Hnext.
  cbv zeta in Hnext.
  destruct (lim_le0 (lim_pred (st_limit st)) || negb (isUrl (next_url st ctx))).
  - rewrite Hnext. split; [reflexivity|].
    destruct fuel; [rewrite cycle_zero|rewrite cycle_step]; rewrite Hnext; reflexivity.
  - destruct (abort obj (next_url st ctx)).
    + rewrite Hnext. split; [reflexivity|].
      destruct fuel; [rewrite cycle_zero|rewrite cycle_step]; rewrite Hnext; reflexivity.
    + rewrite cycle_step, Hnext. cbn [fst snd].
      split; [reflexivity|]. split; [reflexivity|]. split; [reflexivity|].
      destruct (fetch_events (next_url st ctx)) as (_ & Hfq & _).
      rewrite !requested_app, Hfq. cbn [requested app]. eexists. reflexivity.
Qed.


(** *** Strict mode *)

(** In strict mode a schema the validator rejects is never walked. *)
Lemma walkHTML_rejects err ctx :
  strictMode = true ->
  assertValidType (validators_of doc customTypes) selector "selector" = Some err ->
  walkHTML_ ctx = ([EvValidate selector], Some (SigErr err)).
Proof. intros Hs Hv. unfold walkHTML. rewrite Hs, Hv. reflexivity. Qed.

Lemma cycle_on_error fuel st err :
  cycle_ fuel st (Some (SigErr err)) = ([EvReport (Err err)], Finished).
Proof. destruct fuel; reflexivity. Qed.

(** C8, as the code has it.  Validation is the first thing [walkHTML]
    does, and [walkHTML] is given a document: in strict mode a malformed
    schema is validated after the first document has been requested (when
    the source is a URL) and loaded, and before any of it is walked.
    The run then ends on the error of the validator, which carries the
    path it was given and the type it observed, with no walk at all; or
    on the error of the request, if that failed first. *)
Theorem strict_validation_follows_the_fetch :
  forall (fuel : nat) (st : state) (src : source doc) (err : jserror),
    strictMode = true ->
    assertValidType (validators_of doc customTypes) selector "selector" = Some err ->
    snd (node_ fuel st src) = Finished /\
    walked_docs (fst (node_ fuel st src)) = [] /\
    ((exists html,
         fst (node_ fuel st src) =
           [EvLoad html None; EvValidate selector; EvReport (Err err)]) \/
     (exists url html,
         request url = Ok html /\
         fst (node_ fuel st src) =
           [EvRequest url; EvLoad (SrcVal html) (Some url); EvValidate selector;
            EvReport (Err err)]) \/
     (exists url e,
         request url = Err e /\
         fst (node_ fuel st src) = [EvRequest url; EvReport (Err e)])) /\
    err = TypeError
            (default EmptyString
               (v_error (validateType (validators_of doc customTypes) selector "selector")))
            (Some "selector")
            (Some (v_type (validateType (validators_of doc customTypes) selector "selector"))).
Proof.
  intros fuel st src err Hs Hv.
  assert (Hlocal : forall html,
             open_local_ html = ([EvLoad html None; EvValidate selector], Some (SigErr err))).
  { intros html. unfold open_local. rewrite (walkHTML_rejects err _ Hs Hv). reflexivity. }
  assert (Hfetch : forall url,
             (exists html, request url = Ok html /\
                fetch_ url = ([EvRequest url; EvLoad (SrcVal html) (Some url);
                               EvValidate selector], Some (SigErr err))) \/
             (exists e, request url = Err e /\
                fetch_ url = ([EvRequest url], Some (SigErr e)))).
  { intros url. unfold fetch. destruct (request url) as [html|e].
    - left. exists html. rewrite (walkHTML_rejects err _ Hs Hv). split; reflexivity.
    - right. exists e. split; reflexivity. }
  assert (Hfirst : (exists html, first_page_ src =
                      ([EvLoad html None; EvValidate selector], Some (SigErr err))) \/
                   (exists url html, request url = Ok html /\ first_page_ src =
                      ([EvRequest url; EvLoad (SrcVal html) (Some url);
                        EvValidate selector], Some (SigErr err))) \/
                   (exists url e, request url = Err e /\ first_page_ src =
                      ([EvRequest url], Some (SigErr e)))).
  { unfold first_page.
    assert (Hf : forall url,
               (exists u html, request u = Ok html /\ fetch_ url =
                  ([EvRequest u; EvLoad (SrcVal html) (Some u); EvValidate selector],
                   Some (SigErr err))) \/
               (exists u e, request u = Err e /\ fetch_ url =
                  ([EvRequest u], Some (SigErr e)))).
    { intros url. destruct (Hfetch url) as [(html & ? & ?)|(e & ? & ?)];
        [left; exists url, html|right; exists url, e]; split; assumption. }
    destruct (source_url _ _) as [url|]; [right; apply Hf|].
    destruct (scope_has_at scope).
    - destruct (negb _); [left; eexists; apply Hlocal|right; apply Hf].
    - destruct (source_truthy _ _); left; eexists; apply Hlocal. }
  split; [|split; [|split]].
  - rewrite node_unfold. cbn [snd].
    destruct Hfirst as [(? & ->)|[(? & ? & _ & ->)|(? & ? & _ & ->)]];
      cbn [snd]; rewrite cycle_on_error; reflexivity.
  - rewrite node_unfold. cbn [fst].
    destruct Hfirst as [(? & ->)|[(? & ? & _ & ->)|(? & ? & _ & ->)]];
      cbn [fst snd]; rewrite cycle_on_error; reflexivity.
  - rewrite node_unfold. cbn [fst].
    destruct Hfirst as [(html & ->)|[(url & html & Hr & ->)|(url & e & Hr & ->)]];
      cbn [fst snd]; rewrite cycle_on_error.
    + left. exists html. reflexivity.
    + right. left. exists url, html. split; [exact Hr|reflexivity].
    + right. right. exists url, e. split; [exact Hr|reflexivity].
  - unfold assertValidType in Hv. destruct (v_valid _); [discriminate|].
    injection Hv as <-. reflexivity.
Qed.

(** *** Sources that cannot be opened *)


End PaginationFacts.

(** C1, as stated: a second terminal signal is not dropped.  With one
    page left, the page that exhausts the limit is reported, and the
    fetch error that reaches [next] after it is reported as well. *)
Lemma second_terminal_signal_is_reported :
  let st := {| st_paginate := JStr ".next@href"; st_limit := Finite 1;
               st_abort := None; st_pages := []; st_stream := None |} in
  let racing := [SigOk (JArr [JStr "a"]) 1%nat; SigErr (Failure 7)] in
  reports (deliver (next Site.page Site.isUrl Site.resolve) st racing)
    = [Ok (JArr [JStr "a"]); Err (Failure 7)] /\
  ~ (length (reports (deliver (next Site.page Site.isUrl Site.resolve) st racing)) <= 1)%nat.
Proof.
  intros st racing. split; [reflexivity|]. vm_compute. lia.
Qed.

(* ===================================================================== *)
(** ** The properties on the three-page site *)
(* ===================================================================== *)

Abbreviation on_site property strict selector scope :=
  (property Site.page Site.isObject Site.isUrl Site.settling Site.root Site.compact
            Site.resolve
            Site.call_function Site.doc_text Site.regexp_match Site.find Site.xray
            Site.order Site.request Site.load Site.customTypes
            strict selector scope).

Lemma report_once_when_signalled_once_witness :
  let st := Site.paginated 2 None in
  let run := Site.run false Site.items None 5 st (SrcVal (Site.url_of 1)) in
  stream_returns render true st (fst run) /\
  snd run = Finished /\
  reports (fst run) = [Ok (JArr [JStr "a"; JStr "b"; JStr "c"; JStr "d"; JStr "e"])] /\
  exists tr r, fst run = tr ++ [EvReport r] /\ reports tr = [].
Proof.
  intros st run.
  assert (Hreturns : stream_returns render true st (fst run)).
  { right. repeat constructor. }
  split; [exact Hreturns|]. split; [reflexivity|]. split; [reflexivity|].
  exact (proj1 (on_site report_once_when_signalled_once false Site.items None
                  render true 5%nat st (SrcVal (Site.url_of 1)) Hreturns)).
Defined.


(** C4, as stated: the value reported is not the value of the latest
    page.  Two pages of a schema whose root is a mapping: the second
    page's value is the last one streamed, and what is reported is the
    array of both. *)
Lemma paginated_report_is_not_the_latest_page :
  let run := Site.run false Site.titled None 5 (Site.paginated 2 None)
               (SrcVal (Site.html_of 1)) in
  let one := JObj CtorObject [("title", JStr "one")] in
  let two := JObj CtorObject [("title", JStr "two")] in
  List.last (streamed (fst run)) JUndefined = two /\
  reports (fst run) = [Ok (JArr [one; two])] /\
  reports (fst run) <> [Ok two].
Proof.
  intros run one two. split; [reflexivity|]. split; [reflexivity|discriminate].
Qed.

Lemma paginated_report_is_the_page_buffer_witness :
  let run := Site.run false Site.titled None 5 (Site.paginated 2 None)
               (SrcVal (Site.html_of 1)) in
  let one := JObj CtorObject [("title", JStr "one")] in
  let two := JObj CtorObject [("title", JStr "two")] in
  Forall (fun o => isArray o = false) (streamed (fst run)) /\
  In (Ok (JArr [one; two])) (reports (fst run)) /\
  JArr [one; two] = JArr ([] ++ streamed (fst run)).
Proof.
  intros run one two.
  assert (Hall : Forall (fun o => isArray o = false) (streamed (fst run))).
  { repeat constructor. }
  assert (Hin : In (Ok (JArr [one; two])) (reports (fst run))).
  { left. reflexivity. }
  split; [exact Hall|]. split; [exact Hin|].
  exact (on_site paginated_report_is_the_page_buffer false Site.titled None
           5%nat (Site.paginated 2 None) (SrcVal (Site.html_of 1)) (JArr [one; two])
           eq_refl Hall Hin).
Defined.

(** C5, as stated: the predicate does not receive the accumulated result.
    On the second page it is called with the items of that page, while
    the accumulation, which is what the run then reports, holds those of
    both pages. *)
Lemma abort_does_not_see_the_accumulation :
  let run := Site.run false Site.items None 5
               (Site.paginated 3 (Some Site.stop_on_second)) (SrcVal (Site.html_of 1)) in
  abort_calls (fst run) =
    [(JArr [JStr "a"; JStr "b"; JStr "c"], Site.url_of 2);
     (JArr [JStr "d"; JStr "e"], Site.url_of 3)] /\
  reports (fst run) = [Ok (JArr [JStr "a"; JStr "b"; JStr "c"; JStr "d"; JStr "e"])] /\
  ~ In (JArr [JStr "a"; JStr "b"; JStr "c"; JStr "d"; JStr "e"])
       (map fst (abort_calls (fst run))).
Proof.
  intros run. split; [reflexivity|]. split; [reflexivity|].
  cbn. intros [H|[H|[]]]; discriminate.
Qed.

Lemma abort_sees_current_page_and_next_url_witness :
  let st := {| st_paginate := JStr ".next@href"; st_limit := Finite 2;
               st_abort := Some Site.stop_on_second;
               st_pages := [JStr "a"; JStr "b"; JStr "c"];
               st_stream := Some ArrayStream |} in
  let last := {| st_paginate := JStr ".next@href"; st_limit := Finite 1;
                 st_abort := Some Site.stop_on_second;
                 st_pages := [JStr "a"; JStr "b"; JStr "c"];
                 st_stream := Some ArrayStream |} in
  let page2 := JArr [JStr "d"; JStr "e"] in
  (abort_calls (snd (fst (next Site.page Site.isUrl Site.resolve st (SigOk page2 2%nat))))
     = [(page2, Site.url_of 3)] /\
   on_site cycle false Site.items None 4%nat st (Some (SigOk page2 2%nat)) =
     ([EvAbort page2 (Site.url_of 3) true; EvStream page2 true;
       EvReport (Ok (JArr [JStr "a"; JStr "b"; JStr "c"; JStr "d"; JStr "e"]))],
      Finished)) /\
  (abort_calls (snd (fst (next Site.page Site.isUrl Site.resolve last
                            (SigOk page2 2%nat)))) = [] /\
   on_site cycle false Site.items None 4%nat last (Some (SigOk page2 2%nat)) =
     ([EvStream page2 true;
       EvReport (Ok (JArr [JStr "a"; JStr "b"; JStr "c"; JStr "d"; JStr "e"]))],
      Finished)).
Proof.
  intros st last page2. split.
  - exact (on_site abort_sees_current_page_and_next_url false Site.items None
             render true 4%nat st page2 2%nat Site.stop_on_second
             eq_refl eq_refl eq_refl).
  - exact (on_site abort_sees_current_page_and_next_url false Site.items None
             render true 4%nat last page2 2%nat Site.stop_on_second
             eq_refl eq_refl eq_refl).
Defined.


(** C8, as stated: validation does not come before the fetch.  In strict
    mode, a run on a URL with a schema that has a number for a leaf
    requests the page and loads it, and only then validates and reports. *)
Lemma strict_validation_comes_after_the_request :
  fst (Site.run true Site.malformed None 5 (INIT_STATE) (SrcVal (Site.url_of 1))) =
    [EvRequest (Site.url_of 1);
     EvLoad (SrcVal (Site.html_of 1)) (Some (Site.url_of 1));
     EvValidate Site.malformed;
     EvReport (Err (TypeError (unsupported_msg "selector.bad" (JNum 123))
                              (Some "selector") (Some "number")))].
Proof. reflexivity. Qed.

Lemma strict_validation_follows_the_fetch_witness :
  assertValidType (validators_of Site.page Site.customTypes) Site.malformed "selector"
    = Some (TypeError (unsupported_msg "selector.bad" (JNum 123))
                      (Some "selector") (Some "number")) /\
  snd (Site.run true Site.malformed None 5 (INIT_STATE) (SrcVal (Site.url_of 1)))
    = Finished /\
  walked_docs (fst (Site.run true Site.malformed None 5 (INIT_STATE)
                      (SrcVal (Site.url_of 1)))) = [].
Proof.
  split; [reflexivity|].
  destruct (on_site strict_validation_follows_the_fetch true Site.malformed None
              5%nat (INIT_STATE) (SrcVal (Site.url_of 1))
              (TypeError (unsupported_msg "selector.bad" (JNum 123))
                         (Some "selector") (Some "number"))
              eq_refl eq_refl) as (Hend & Hwalked & _).
  split; assumption.
Defined.


(* ===================================================================== *)
(** ** More of the validator *)
(* ===================================================================== *)

Abbreviation defaulted path :=
  (if bool_decide (path = EmptyString) then "selector" else path).

Section ValidatorShape.
Variable cts : validators.

Lemma defaulted_suffix_not_empty path suffix :
  suffix <> EmptyString -> defaulted path +:+ suffix <> EmptyString.
Proof.
  intros Hs. destruct (bool_decide (path = EmptyString)) eqn:E.
  - discriminate.
  - apply bool_decide_eq_false in E. destruct path; [congruence|discriminate].
Qed.

Lemma append_not_empty (a b : string) : b <> EmptyString -> a +:+ b <> EmptyString.
Proof. intros Hb. destruct a; [exact Hb|discriminate]. Qed.

Lemma validateType_array_object c p ps rest path :
  validateType cts (JArr (JObj c (p :: ps) :: rest)) path =
  if v_valid (validateType cts (JObj c (p :: ps)) (defaulted path +:+ "[0]"))
  then valid_as "array-object"
  else validateType cts (JObj c (p :: ps)) (defaulted path +:+ "[0]").
Proof.
  assert (Hne : defaulted path +:+ "[0]" <> EmptyString)
    by (apply defaulted_suffix_not_empty; discriminate).
  destruct p as [key v]. cbn [validateType].
  rewrite (bool_decide_eq_false_2 _ Hne). reflexivity.
Qed.

Lemma first_invalid_valid vs :
  v_valid (first_invalid vs) = forallb v_valid vs.
Proof.
  induction vs as [|r rest IH]; [reflexivity|].
  cbn [first_invalid forallb]. destruct (v_valid r) eqn:E; [exact IH|exact E].
Qed.

(** A validation says [valid] with no error, or [invalid] with one. *)
Lemma first_invalid_coherent vs : Forall coherent vs -> coherent (first_invalid vs).
Proof.
  induction 1 as [|r rest Hr _ IH]; [left; split; reflexivity|].
  cbn [first_invalid]. destruct Hr as [[Hv He]|[Hv He]]; rewrite Hv;
    [exact IH|right; split; assumption].
Qed.

Lemma validateType_coherent v path : coherent (validateType cts v path).
Proof.
  revert path.
  induction v as [| | | | | | |items IH|c props IH] using jsval_nested_ind;
    intros path;
    try (left; split; reflexivity).
  - destruct (custom_match cts (JBool b)) eqn:E; cbn [validateType]; rewrite E;
      [left; split; reflexivity|right; split; [reflexivity|eexists; reflexivity]].
  - destruct (custom_match cts (JNum n)) eqn:E; cbn [validateType]; rewrite E;
      [left; split; reflexivity|right; split; [reflexivity|eexists; reflexivity]].
  - destruct items as [|first rest];
      [right; split; [reflexivity|eexists; reflexivity]|].
    inversion IH as [|? ? Hfirst _]; subst.
    destruct first as [| | | | | | |inner|c [|p ps]];
      try (right; split; [reflexivity|eexists; reflexivity]);
      try (left; split; reflexivity).
    rewrite validateType_array_object.
    destruct (Hfirst (defaulted path +:+ "[0]")) as [[Hv He]|[Hv He]]; rewrite Hv.
    + left; split; reflexivity.
    + right; split; assumption.
  - destruct props as [|p ps];
      [right; split; [reflexivity|eexists; reflexivity]|].
    rewrite validateType_mapping. apply first_invalid_coherent.
    apply Forall_map. eapply List.Forall_impl; [|exact IH].
    intros [k x] Hx. apply Hx.
Qed.

End ValidatorShape.

(** X1.  The validator's answer is coherent: whatever the value, the path
    and the registered custom types, a result that says valid carries no
    error, and a result that says invalid carries a message; so
    [assertValidType] throws exactly when the result says invalid, and
    then with that message. *)
Theorem validation_error_iff_invalid :
  forall (cts : validators) (value : jsval) (path : string),
    coherent (validateType cts value path) /\
    (assertValidType cts value path = None <->
     v_error (validateType cts value path) = None) /\
    match assertValidType cts value path with
    | Some (TypeError message p t) =>
        v_error (validateType cts value path) = Some message /\
        p = Some path /\ t = Some (v_type (validateType cts value path))
    | Some (Failure _) => False
    | None => v_valid (validateType cts value path) = true
    end.
Proof.
  intros cts value path.
  pose proof (validateType_coherent cts value path) as Hc.
  split; [exact Hc|]. unfold assertValidType.
  destruct Hc as [[Hv He]|[Hv [msg He]]]; rewrite Hv, He; cbn [default].
  - split; [tauto|reflexivity].
  - split; [split; discriminate|repeat split].
Qed.

Section ValidatorPaths.
Variable cts : validators.

Lemma first_invalid_same_verdict (props : list (string * jsval))
    (f g : string * jsval -> validation) :
  Forall (fun kv => same_verdict (f kv) (g kv)) props ->
  same_verdict (first_invalid (map f props)) (first_invalid (map g props)).
Proof.
  induction 1 as [|kv rest [Hv Ht] _ IH]; [split; reflexivity|].
  cbn [map first_invalid]. rewrite <- Hv.
  destruct (v_valid (f kv)) eqn:E; [exact IH|split; [congruence|assumption]].
Qed.

Lemma validateType_same_verdict v p q :
  same_verdict (validateType cts v p) (validateType cts v q).
Proof.
  revert p q.
  induction v as [| | | | | | |items IH|c props IH] using jsval_nested_ind;
    intros p q; try (split; reflexivity).
  - cbn [validateType]. destruct (custom_match cts (JBool b)); split; reflexivity.
  - cbn [validateType]. destruct (custom_match cts (JNum n)); split; reflexivity.
  - destruct items as [|first rest]; [split; reflexivity|].
    inversion IH as [|? ? Hfirst _]; subst.
    destruct first as [| | | | | | |inner|c [|k ps]]; try (split; reflexivity).
    rewrite !validateType_array_object.
    destruct (Hfirst (defaulted p +:+ "[0]") (defaulted q +:+ "[0]")) as [Hv Ht].
    rewrite <- Hv. destruct (v_valid _) eqn:E;
      [split; reflexivity|split; [congruence|assumption]].
  - destruct props as [|kv ps]; [split; reflexivity|].
    rewrite !validateType_mapping. apply first_invalid_same_verdict.
    eapply List.Forall_impl; [|exact IH]. intros [k x] Hx. apply Hx.
Qed.

End ValidatorPaths.

(** X2.  The path only goes into the message: whether a value is valid,
    and the type reported for it, are the same at every path.  So
    [isValidType] and [getTypeName], which validate at the empty path,
    answer for the validation of the value wherever it stands in a
    schema. *)
Theorem validity_does_not_depend_on_the_path :
  forall (cts : validators) (value : jsval) (p q : string),
    v_valid (validateType cts value p) = v_valid (validateType cts value q) /\
    v_type (validateType cts value p) = v_type (validateType cts value q) /\
    isValidType cts value = v_valid (validateType cts value p) /\
    getTypeName cts value = v_type (validateType cts value p).
Proof.
  intros cts value p q.
  destruct (validateType_same_verdict cts value p q) as [Hv Ht].
  destruct (validateType_same_verdict cts value EmptyString p) as [Hv' Ht'].
  repeat split; assumption.
Qed.

(** X3.  The validator stops at the first property that is invalid and
    returns the validation of that property unchanged: the type, and the
    message with the dotted path of the property.  What comes after it in
    the object is not looked at. *)
Theorem validator_returns_the_first_invalid_property :
  forall (cts : validators) (c : ctor) (pre rest : list (string * jsval))
         (key : string) (v : jsval) (path : string),
    Forall (fun kv => v_valid (validateType cts (snd kv)
                                 (defaulted path +:+ "." +:+ fst kv)) = true) pre ->
    v_valid (validateType cts v (defaulted path +:+ "." +:+ key)) = false ->
    validateType cts (JObj c (pre ++ (key, v) :: rest)) path =
    validateType cts v (defaulted path +:+ "." +:+ key).
Proof.
  intros cts c pre rest key v path Hpre Hv.
  assert (Hloop : first_invalid
                    (map (fun kv => validateType cts (snd kv)
                                      (defaulted path +:+ "." +:+ fst kv))
                         (pre ++ (key, v) :: rest)) =
                  validateType cts v (defaulted path +:+ "." +:+ key)).
  { induction Hpre as [|kv l Hkv _ IH].
    - cbn [app map first_invalid fst snd]. rewrite Hv. reflexivity.
    - cbn [app map first_invalid]. rewrite Hkv. exact IH. }
  destruct pre as [|p0 pre']; cbn [app] in *;
    rewrite validateType_mapping; exact Hloop.
Qed.

Lemma validator_returns_the_first_invalid_property_witness :
  validateType [] (JObj CtorObject
                     [("title", JStr "h1");
                      ("meta", JObj CtorObject [("date", JNum 7)]);
                      ("later", JArr [])]) "selector"
  = invalid_as "number" (unsupported_msg "selector.meta.date" (JNum 7)).
Proof.
  assert (Hpre : Forall (fun kv => v_valid (validateType [] (snd kv)
                                     (defaulted "selector" +:+ "." +:+ fst kv)) = true)
                        [("title", JStr "h1")]).
  { repeat constructor. }
  exact (validator_returns_the_first_invalid_property
           [] CtorObject [("title", JStr "h1")] [("later", JArr [])]
           "meta" (JObj CtorObject [("date", JNum 7)]) "selector" Hpre eq_refl).
Defined.

Section ValidatorCustom.
Variables cts cts' : validators.
Hypothesis more :
  forall x, custom_match cts x <> None -> custom_match cts' x <> None.

Lemma first_invalid_all_valid (props : list (string * jsval))
    (f g : string * jsval -> validation) :
  Forall (fun kv => v_valid (f kv) = true -> v_valid (g kv) = true) props ->
  v_valid (first_invalid (map f props)) = true ->
  v_valid (first_invalid (map g props)) = true.
Proof.
  rewrite !first_invalid_valid.
  induction 1 as [|kv rest Hkv _ IH]; [reflexivity|].
  cbn [map forallb]. rewrite !andb_true_iff. intros [H1 H2].
  split; [apply Hkv, H1|apply IH, H2].
Qed.

Lemma validateType_more_custom v p q :
  v_valid (validateType cts v p) = true -> v_valid (validateType cts' v q) = true.
Proof.
  revert p q.
  induction v as [| | | | | | |items IH|c props IH] using jsval_nested_ind;
    intros p q; try (intros _; reflexivity).
  - cbn [validateType]. pose proof (more (JBool b)) as Hm.
    destruct (custom_match cts (JBool b)); [|discriminate].
    destruct (custom_match cts' (JBool b)); [reflexivity|].
    exfalso. apply Hm; [discriminate|reflexivity].
  - cbn [validateType]. pose proof (more (JNum n)) as Hm.
    destruct (custom_match cts (JNum n)); [|discriminate].
    destruct (custom_match cts' (JNum n)); [reflexivity|].
    exfalso. apply Hm; [discriminate|reflexivity].
  - destruct items as [|first rest]; [discriminate|].
    inversion IH as [|? ? Hfirst _]; subst.
    destruct first as [| | | | | | |inner|c [|k ps]]; try discriminate;
      try (intros _; reflexivity).
    rewrite !validateType_array_object.
    specialize (Hfirst (defaulted p +:+ "[0]") (defaulted q +:+ "[0]")).
    destruct (v_valid (validateType cts _ _)) eqn:E; [|intros H; congruence].
    rewrite (Hfirst eq_refl). reflexivity.
  - destruct props as [|kv ps]; [discriminate|].
    rewrite !validateType_mapping. apply first_invalid_all_valid.
    eapply List.Forall_impl; [|exact IH]. intros [k x] Hx. apply Hx.
Qed.

End ValidatorCustom.

(** X4.  Registering custom types never makes a schema invalid: a value
    that is valid under some registry is valid under every registry whose
    discriminators accept at least the same values, at any path.  In
    particular what is valid with no custom type stays valid. *)
Theorem more_custom_types_keep_a_schema_valid :
  forall (cts cts' : validators) (value : jsval) (p q : string),
    (forall x, custom_match cts x <> None -> custom_match cts' x <> None) ->
    v_valid (validateType cts value p) = true ->
    v_valid (validateType cts' value q) = true.
Proof.
  intros cts cts' value p q Hmore. apply validateType_more_custom. exact Hmore.
Qed.

Lemma more_custom_types_keep_a_schema_valid_witness :
  let schema := JObj CtorObject [("title", JStr "h1"); ("tags", JArr [JStr "li"])] in
  let numbers : validators :=
    [("number", Some (fun v => match v with JNum _ => true | _ => false end))] in
  v_valid (validateType [] schema "selector") = true /\
  v_valid (validateType numbers schema "selector") = true.
Proof.
  intros schema numbers. split; [reflexivity|].
  apply (more_custom_types_keep_a_schema_valid [] numbers schema "selector" "selector").
  - intros x H. exfalso. apply H. reflexivity.
  - reflexivity.
Defined.

(* ===================================================================== *)
(** ** Strict mode on a valid schema *)
(* ===================================================================== *)

Section StrictFacts.
Variable doc : Type.
Variable isObject : jsval -> bool.
Variable settling : nat -> list nat.
Variable root : option string -> jsval.
Variable compact : list jsval -> list jsval.
Variable resolve : source doc -> jsval -> jsval -> jsval.
Variable doc_text : doc -> string.
Variable regexp_match : nat -> string -> option (list jsval).
Variable find : doc -> option string -> list doc.
Variable order : nat -> list nat.
Variable customTypes : list (string * typeConfig doc).
Variable scope : option string.
(** The nodes a schema can hold, function selectors and the sub-node of
    a sequence of mappings, belong to the instance and run in its mode:
    those of the strict instance and those of the permissive one. *)
Variables call_function call_function' : nat -> doc -> result jsval.
Variables xray xray' : option string -> jsval -> doc -> result jsval.

Abbreviation leaf_strict :=
  (leaf doc root compact resolve call_function doc_text regexp_match find xray
        order customTypes true scope).
Abbreviation leaf_permissive :=
  (leaf doc root compact resolve call_function' doc_text regexp_match find xray'
        order customTypes false scope).
Abbreviation registered := (validators_of doc customTypes).

(** On a value that holds no node and that the validator accepts, the
    callback answers the same in both modes. *)
Lemma leaf_strict_on_valid ctx v k path :
  declarative v = true ->
  v_valid (validateType registered v path) = true ->
  leaf_strict ctx v k = leaf_permissive ctx v k.
Proof.
  intros Hd Hv.
  assert (Hk : v_valid (validateType registered v (default EmptyString k)) = true).
  { rewrite <- Hv. apply validateType_same_verdict. }
  destruct v as [| |b|n|s|f|r|items|c props]; try reflexivity; try discriminate Hd;
    unfold leaf; (destruct (custom_find doc customTypes _); [reflexivity|]);
    unfold leaf_array_or_unknown.
  - cbn [isArray andb]. rewrite Hk. reflexivity.
  - cbn [isArray andb]. rewrite Hk. reflexivity.
  - assert (Hobj : typeof_is (index0 (JArr items)) "object" = false).
    { destruct items as [|first rest]; [reflexivity|].
      cbn [declarative] in Hd. cbn [index0]. apply negb_true_iff, Hd. }
    rewrite Hobj, andb_false_r, Hk. reflexivity.
  - cbn [isArray andb]. rewrite Hk. reflexivity.
Qed.

Lemma mapping_children_valid c props path :
  v_valid (validateType registered (JObj c props) path) = true ->
  Forall (fun kv => v_valid (validateType registered (snd kv)
                               (defaulted path +:+ "." +:+ fst kv)) = true) props.
Proof.
  destruct props as [|p ps]; [discriminate|].
  rewrite validateType_mapping, first_invalid_valid. generalize (p :: ps).
  intros l. induction l as [|kv rest IH]; [constructor|].
  cbn [map forallb]. rewrite andb_true_iff. intros [H1 H2].
  constructor; [exact H1|apply IH, H2].
Qed.

Lemma declarative_children c props :
  declarative (JObj c props) = true ->
  Forall (fun kv => declarative (snd kv) = true) props.
Proof.
  induction props as [|[k x] rest IH]; [constructor|].
  cbn [declarative]. rewrite andb_true_iff. intros [H1 H2].
  constructor; [exact H1|exact (IH H2)].
Qed.

Lemma walk_strict_on_valid ctx v key path :
  declarative v = true ->
  v_valid (validateType registered v path) = true ->
  walk isObject settling (leaf_strict ctx) v key =
  walk isObject settling (leaf_permissive ctx) v key.
Proof.
  revert key path.
  induction v as [| | | | | | |items IH|c props IH] using jsval_nested_ind;
    intros key path Hd Hv;
    try (rewrite !walk_not_plain by (apply not_plain_of_ctor; reflexivity);
         unfold visit; rewrite (leaf_strict_on_valid ctx _ key path Hd Hv);
         reflexivity).
  destruct (isPlainObject isObject (JObj c props)) eqn:E.
  - rewrite !walk_plain by exact E. f_equal.
    apply mapping_children_valid in Hv. apply declarative_children in Hd.
    unfold walk_children. clear E. revert Hv Hd IH.
    induction props as [|[k x] rest IHrest]; intros Hv Hd IH; [reflexivity|].
    inversion Hv as [|? ? Hx_valid Hrest]; subst.
    inversion Hd as [|? ? Hx_decl Hrest_decl]; subst.
    inversion IH as [|? ? Hx Hrest_walk]; subst.
    cbn [map fst snd] in *.
    rewrite (Hx (Some k) _ Hx_decl Hx_valid), (IHrest Hrest Hrest_decl Hrest_walk).
    reflexivity.
  - rewrite !walk_not_plain by exact E. unfold visit.
    rewrite (leaf_strict_on_valid ctx _ key path Hd Hv). reflexivity.
Qed.

(** X5.  Strict mode changes nothing for a schema that holds no node
    and passes the pre-flight validation.  For a schema without
    function selectors and without sequences of mappings, the only
    schemas whose walk stays within the instance's own callback, the
    walk calls the same leaves and gives the same result in a strict
    and in a permissive instance, whatever the nodes of either instance
    do, and [walkHTML] differs only by the validation it performs
    first: the [TypeError] that the callback raises for an unknown type
    in strict mode is never reached once the schema as a whole has been
    accepted. *)
Theorem strict_mode_agrees_on_a_valid_schema :
  forall (selector : jsval) (ctx : doc),
    declarative selector = true ->
    assertValidType registered selector "selector" = None ->
    walk isObject settling (leaf_strict ctx) selector None =
      walk isObject settling (leaf_permissive ctx) selector None /\
    walkHTML doc isObject settling root compact resolve call_function doc_text
             regexp_match find xray order customTypes true selector scope ctx =
      (EvValidate selector ::
         fst (walkHTML doc isObject settling root compact resolve call_function'
                       doc_text regexp_match find xray' order customTypes false
                       selector scope ctx),
       snd (walkHTML doc isObject settling root compact resolve call_function'
                     doc_text regexp_match find xray' order customTypes false
                     selector scope ctx)).
Proof.
  intros selector ctx Hd Hassert.
  assert (Hv : v_valid (validateType registered selector "selector") = true).
  { unfold assertValidType in Hassert. destruct (v_valid _); [reflexivity|discriminate]. }
  pose proof (walk_strict_on_valid ctx selector None "selector" Hd Hv) as Hwalk.
  split; [exact Hwalk|].
  unfold walkHTML. rewrite Hassert, Hwalk. reflexivity.
Qed.

End StrictFacts.

Lemma strict_mode_agrees_on_a_valid_schema_witness :
  let schema := JObj CtorObject [("title", JStr "h1"); ("opt", JNull);
                                 ("tags", JArr [JStr "li"])] in
  declarative schema = true /\
  assertValidType (validators_of Site.page Site.customTypes) schema "selector" = None /\
  snd (Site.run true schema None 0 (INIT_STATE) (SrcVal (Site.html_of 1))) = Finished /\
  walk Site.isObject Site.settling
       (leaf Site.page Site.root Site.compact Site.resolve Site.call_function
             Site.doc_text Site.regexp_match Site.find Site.xray Site.order
             Site.customTypes true None 1%nat) schema None
  = walk Site.isObject Site.settling
         (leaf Site.page Site.root Site.compact Site.resolve
               (fun _ _ => Err (Failure 1))
               Site.doc_text Site.regexp_match Site.find flaky Site.order
               Site.customTypes false None 1%nat) schema None.
Proof.
  intros schema. split; [reflexivity|]. split; [reflexivity|]. split; [reflexivity|].
  exact (proj1 (strict_mode_agrees_on_a_valid_schema
                  Site.page Site.isObject Site.settling Site.root Site.compact
                  Site.resolve Site.doc_text Site.regexp_match
                  Site.find Site.order Site.customTypes None
                  Site.call_function (fun _ _ => Err (Failure 1)) Site.xray flaky
                  schema 1%nat eq_refl eq_refl)).
Defined.

(* ===================================================================== *)
(** ** More of the walker *)
(* ===================================================================== *)

Lemma prop_set_fresh k v props :
  ~ In k (map fst props) -> prop_set k v props = props ++ [(k, v)].
Proof.
  induction props as [|[k' v'] rest IH]; intros Hk; [reflexivity|].
  cbn [prop_set map fst In] in *.
  rewrite bool_decide_eq_false_2 by (intros ->; apply Hk; left; reflexivity).
  rewrite IH by (intros Hin; apply Hk; right; exact Hin). reflexivity.
Qed.

Lemma kept_entry_key kw e : kept_entry kw = Some e -> fst e = fst kw.
Proof.
  unfold kept_entry. destruct (walk_done (snd kw)) as [[value|err]|]; try discriminate.
  destruct (retained value); [|discriminate]. intros [= <-]. reflexivity.
Qed.

Lemma kept_entries_keys children k :
  In k (map fst (omap kept_entry children)) -> In k (map fst children).
Proof.
  induction children as [|kw rest IH]; [intros []|].
  cbn [omap list_omap]. destruct (kept_entry kw) as [e|] eqn:E.
  - cbn [map In]. intros [<-|Hin].
    + left. symmetry. apply kept_entry_key, E.
    + right. apply IH, Hin.
  - intros Hin. right. apply IH, Hin.
Qed.

Lemma fold_child_appends children b :
  Forall (fun kw => exists value, walk_done (snd kw) = Some (Ok value)) children ->
  List.NoDup (map fst children) ->
  (forall k, In k (map fst children) -> ~ In k (map fst (batch_out b))) ->
  batch_err b = None ->
  batch_out (fold_left child_step children b) = batch_out b ++ omap kept_entry children.
Proof.
  intros Hall. revert b.
  induction Hall as [|[k w] rest [value Hw] _ IH]; intros b Hnd Hfresh He.
  - cbn [fold_left omap list_omap]. rewrite app_nil_r. reflexivity.
  - cbn [snd] in Hw. cbn [map fst] in Hnd.
    inversion Hnd as [|? ? Hk Hrest]; subst.
    cbn [fold_left omap list_omap]. unfold child_step at 2. cbn [fst snd].
    unfold kept_entry. cbn [fst snd]. rewrite Hw.
    assert (Hstep : child_done k (Some (Ok value)) b =
                    {| batch_out := if retained value
                                    then batch_out b ++ [(k, value)] else batch_out b;
                       batch_err := None;
                       batch_left := (batch_left b - 1)%Z |}).
    { unfold child_done. rewrite He.
      destruct (retained value); [|reflexivity].
      rewrite prop_set_fresh; [reflexivity|].
      apply Hfresh. left. reflexivity. }
    rewrite Hstep, IH; [| exact Hrest | | reflexivity].
    + cbn [batch_out]. destruct (retained value); [|reflexivity].
      rewrite <- app_assoc. reflexivity.
    + intros k' Hk'. cbn [batch_out].
      assert (Hold : ~ In k' (map fst (batch_out b))).
      { apply Hfresh. right. exact Hk'. }
      destruct (retained value); [|exact Hold].
      rewrite map_app, in_app_iff. cbn [map fst In].
      intros [Hin|[->|[]]]; [exact (Hold Hin)|exact (Hk Hk')].
Qed.

Lemma assemble_keys_follow_completion :
  forall (completion : list nat) (children : list (string * walked)),
    List.NoDup (map fst children) ->
    Permutation completion (seq 0 (length children)) ->
    Forall (fun kw => exists value, walk_done (snd kw) = Some (Ok value)) children ->
    walk_done (assemble completion children) =
      Some (Ok (JObj CtorObject (omap kept_entry (in_order completion children)))).
Proof.
  intros completion children Hnd Hperm Hall.
  pose proof (in_order_permutation completion children Hperm) as Hp.
  assert (Hall' : Forall (fun kw => exists value, walk_done (snd kw) = Some (Ok value))
                         (in_order completion children)).
  { rewrite Hp. exact Hall. }
  assert (Hnd' : List.NoDup (map fst (in_order completion children))).
  { eapply Permutation_NoDup; [|exact Hnd].
    apply Permutation_map. symmetry. exact Hp. }
  destruct (fold_child_settled (in_order completion children)
              (batch_init (length children)) Hall' eq_refl) as [He Hleft].
  pose proof (fold_child_appends (in_order completion children)
                (batch_init (length children)) Hall' Hnd'
                (fun _ _ H => H) eq_refl) as Hout.
  unfold assemble, batch_end. cbn [walk_done].
  rewrite He, Hleft, Hout. cbn [batch_init batch_left batch_out app].
  rewrite (Permutation_length Hp).
  replace (Z.of_nat (length children) - Z.of_nat (length children))%Z with 0%Z by lia.
  reflexivity.
Qed.

Lemma fold_child_no_error children b :
  Forall (fun kw => forall e, walk_done (snd kw) <> Some (Err e)) children ->
  batch_err b = None ->
  batch_err (fold_left child_step children b) = None /\
  (batch_left b - Z.of_nat (length children) <=
     batch_left (fold_left child_step children b))%Z /\
  ((exists kw, In kw children /\ walk_done (snd kw) = None) ->
   (batch_left b - Z.of_nat (length children) <
      batch_left (fold_left child_step children b))%Z).
Proof.
  intros Hall. revert b. induction Hall as [|[k w] rest Hw _ IH]; intros b He.
  - cbn [fold_left length]. repeat split; [exact He|lia|intros (kw & [] & _)].
  - cbn [snd] in Hw. cbn [fold_left length].
    assert (Hstep : batch_err (child_step b (k, w)) = None /\
                    (batch_left b - 1 <= batch_left (child_step b (k, w)))%Z /\
                    (walk_done w = None ->
                     batch_left (child_step b (k, w)) = batch_left b)).
    { unfold child_step, child_done. cbn [fst snd]. rewrite He.
      destruct (walk_done w) as [[value|e]|] eqn:E.
      - cbn. repeat split; [lia|discriminate].
      - exfalso. exact (Hw e eq_refl).
      - repeat split; [exact He|lia]. }
    destruct Hstep as (He' & Hle & Hsame).
    destruct (IH _ He') as (H1 & H2 & H3).
    split; [exact H1|]. split; [lia|].
    intros (kw & [<-|Hin] & Hnone).
    + cbn [snd] in Hnone. rewrite (Hsame Hnone) in H2. lia.
    + specialize (H3 (ex_intro _ kw (conj Hin Hnone))). lia.
Qed.

Lemma fold_child_error_sticks children b e :
  batch_err b = Some e -> fold_left child_step children b = b.
Proof.
  intros He. induction children as [|kw rest IH]; [reflexivity|].
  cbn [fold_left]. unfold child_step at 2. unfold child_done. rewrite He. exact IH.
Qed.

Lemma assemble_reports_the_first_error :
  forall (completion : list nat) (children pre rest : list (string * walked))
         (k : string) (w : walked) (e : jserror),
    in_order completion children = pre ++ (k, w) :: rest ->
    Forall (fun kw => forall e', walk_done (snd kw) <> Some (Err e')) pre ->
    walk_done w = Some (Err e) ->
    walk_done (assemble completion children) = Some (Err e).
Proof.
  intros completion children pre rest k w e Hsplit Hpre Hw.
  unfold assemble. cbn [walk_done]. rewrite Hsplit, fold_left_app. cbn [fold_left].
  destruct (fold_child_no_error pre (batch_init (length children)) Hpre eq_refl)
    as (He & _ & _).
  assert (Hstep : batch_err (child_step (fold_left child_step pre
                                           (batch_init (length children))) (k, w))
                  = Some e).
  { revert He. generalize (fold_left child_step pre (batch_init (length children))).
    intros b He. unfold child_step, child_done. cbn [fst snd].
    rewrite He, Hw. reflexivity. }
  rewrite (fold_child_error_sticks rest _ e Hstep).
  unfold batch_end. rewrite Hstep. reflexivity.
Qed.

Lemma assemble_waits_for_every_child :
  forall (completion : list nat) (children : list (string * walked)),
    Permutation completion (seq 0 (length children)) ->
    Forall (fun kw => forall e, walk_done (snd kw) <> Some (Err e)) children ->
    (exists kw, In kw children /\ walk_done (snd kw) = None) ->
    walk_done (assemble completion children) = None.
Proof.
  intros completion children Hperm Hall (kw & Hin & Hnone).
  pose proof (in_order_permutation completion children Hperm) as Hp.
  assert (Hall' : Forall (fun kw => forall e, walk_done (snd kw) <> Some (Err e))
                         (in_order completion children)).
  { rewrite Hp. exact Hall. }
  destruct (fold_child_no_error _ (batch_init (length children)) Hall' eq_refl)
    as (He & _ & Hlt).
  assert (Hex : exists kw, In kw (in_order completion children) /\
                           walk_done (snd kw) = None).
  { exists kw. split; [|exact Hnone].
    eapply Permutation_in; [symmetry; exact Hp|exact Hin]. }
  specialize (Hlt Hex). rewrite (Permutation_length Hp) in Hlt.
  cbn [batch_init batch_left] in Hlt.
  unfold assemble, batch_end. cbn [walk_done]. rewrite He.
  destruct (Z.eqb_spec (batch_left (fold_left child_step (in_order completion children)
                                      (batch_init (length children)))) 0) as [H0|_];
    [lia|reflexivity].
Qed.

Section MappingFacts.
Variable isObject : jsval -> bool.
Variable settling : nat -> list nat.
Variable fn : jsval -> okey -> list (result jsval).

Abbreviation walk_ := (walk isObject settling fn).
Abbreviation children_of props := (walk_children isObject settling fn props).

Lemma walk_children_keys props : map fst (children_of props) = map fst props.
Proof.
  unfold walk_children. rewrite map_map. reflexivity.
Qed.

Lemma walk_children_length props : length (children_of props) = length props.
Proof. unfold walk_children. apply length_map. Qed.

Lemma walk_children_all (P : walked -> Prop) props :
  Forall (fun kv => P (walk_ (snd kv) (Some (fst kv)))) props ->
  Forall (fun kw => P (snd kw)) (children_of props).
Proof.
  unfold walk_children. intros H. apply Forall_map.
  eapply List.Forall_impl; [|exact H]. intros kv Hkv. exact Hkv.
Qed.

(** X6.  The keys of the object a mapping yields stand in the order in
    which the walks of its children are done, not in the order of the
    schema: when every child is done with a value, the result holds
    exactly the retained values (neither [undefined] nor the empty
    string), each under its key, in completion order.  Keys that are
    strings of digits are left aside: an object orders those by
    value. *)
Theorem mapping_keys_follow_completion_order :
  forall (c : ctor) (props : list (string * jsval)) (key : okey),
    isPlainObject isObject (JObj c props) = true ->
    List.NoDup (map fst props) ->
    Forall (fun kv => index_like (fst kv) = false) props ->
    Permutation (settling (length props)) (seq 0 (length props)) ->
    Forall (fun kv => exists value,
                walk_done (walk_ (snd kv) (Some (fst kv))) = Some (Ok value)) props ->
    walk_done (walk_ (JObj c props) key) =
      Some (Ok (JObj CtorObject
                  (omap kept_entry
                        (in_order (settling (length props)) (children_of props))))).
Proof.
  intros c props key Hplain Hnd _ Hperm Hall.
  rewrite (walk_plain isObject settling fn c props key Hplain).
  apply assemble_keys_follow_completion.
  - rewrite walk_children_keys. exact Hnd.
  - rewrite walk_children_length. exact Hperm.
  - apply (walk_children_all (fun w => exists value, walk_done w = Some (Ok value))).
    exact Hall.
Qed.

(** X7.  A mapping fails with the first error in completion order: once
    the walk of a child is done with an error, that error is what the
    walk of the mapping passes to [done], whatever the children that
    come later do, be it other errors or never calling back, and
    whatever the children before it left in [out]. *)
Theorem mapping_reports_the_first_error :
  forall (c : ctor) (props : list (string * jsval)) (key : okey)
         (pre rest : list (string * walked)) (k : string) (w : walked) (e : jserror),
    isPlainObject isObject (JObj c props) = true ->
    in_order (settling (length props)) (children_of props) = pre ++ (k, w) :: rest ->
    Forall (fun kw => forall e', walk_done (snd kw) <> Some (Err e')) pre ->
    walk_done w = Some (Err e) ->
    walk_done (walk_ (JObj c props) key) = Some (Err e).
Proof.
  intros c props key pre rest k w e Hplain Hsplit Hpre Hw.
  rewrite (walk_plain isObject settling fn c props key Hplain).
  exact (assemble_reports_the_first_error _ _ pre rest k w e Hsplit Hpre Hw).
Qed.

(** X8.  A mapping waits for every child: when no child fails and the
    walk of one of them never calls back, the walk of the mapping never
    calls [done], however many of the others are done. *)
Theorem mapping_waits_for_every_child :
  forall (c : ctor) (props : list (string * jsval)) (key : okey) (k : string) (v : jsval),
    isPlainObject isObject (JObj c props) = true ->
    Permutation (settling (length props)) (seq 0 (length props)) ->
    Forall (fun kv => forall e,
                walk_done (walk_ (snd kv) (Some (fst kv))) <> Some (Err e)) props ->
    In (k, v) props ->
    walk_done (walk_ v (Some k)) = None ->
    walk_done (walk_ (JObj c props) key) = None.
Proof.
  intros c props key k v Hplain Hperm Hall Hin Hnone.
  rewrite (walk_plain isObject settling fn c props key Hplain).
  apply assemble_waits_for_every_child.
  - rewrite walk_children_length. exact Hperm.
  - apply (walk_children_all (fun w => forall e, walk_done w <> Some (Err e))).
    exact Hall.
  - exists (k, walk_ v (Some k)). split; [|exact Hnone].
    unfold walk_children.
    exact (in_map (fun kv => (fst kv, walk_ (snd kv) (Some (fst kv)))) props (k, v) Hin).
Qed.

End MappingFacts.

Lemma mapping_keys_follow_completion_order_witness :
  let props := [("a", JStr "1"); ("b", JBool true); ("c", JStr EmptyString);
                ("d", JStr "4")] in
  Site.settling 4 = [3; 2; 1; 0]%nat /\
  walk_done (walk Site.isObject Site.settling echo (JObj CtorObject props) None) =
    Some (Ok (JObj CtorObject [("d", JStr "4"); ("a", JStr "1")])).
Proof.
  intros props. split; [reflexivity|].
  refine (mapping_keys_follow_completion_order Site.isObject Site.settling echo
            CtorObject props None eq_refl _ _ _ _).
  - cbn [props map fst]. repeat constructor; cbn [In]; intros H;
      repeat (destruct H as [H|H]; [discriminate H|]); exact H.
  - repeat constructor.
  - change (Site.settling (length props)) with (rev (seq 0 (length props))).
    symmetry. apply Permutation_rev.
  - repeat constructor; eexists; reflexivity.
Defined.

Lemma mapping_reports_the_first_error_witness :
  let props := [("a", JNum 2); ("b", JNull); ("c", JNum 1); ("d", JStr "4")] in
  walk_done (walk Site.isObject Site.settling echo (JObj CtorObject props) None) =
    Some (Err (Failure 1)).
Proof.
  intros props.
  refine (mapping_reports_the_first_error Site.isObject Site.settling echo
            CtorObject props None
            [("d", walk Site.isObject Site.settling echo (JStr "4") (Some "d"))]
            [("b", walk Site.isObject Site.settling echo JNull (Some "b"));
             ("a", walk Site.isObject Site.settling echo (JNum 2) (Some "a"))]
            "c" (walk Site.isObject Site.settling echo (JNum 1) (Some "c"))
            (Failure 1) eq_refl eq_refl _ eq_refl).
  repeat constructor. intros e'. discriminate.
Defined.

Lemma mapping_waits_for_every_child_witness :
  let props := [("a", JStr "1"); ("b", JNull)] in
  walk_done (walk Site.isObject Site.settling echo (JObj CtorObject props) None) = None.
Proof.
  intros props.
  refine (mapping_waits_for_every_child Site.isObject Site.settling echo
            CtorObject props None "b" JNull eq_refl _ _ _ eq_refl).
  - apply perm_swap.
  - repeat constructor; intros e; discriminate.
  - right. left. reflexivity.
Defined.

(* ===================================================================== *)
(** ** A sequence with a failing element *)
(* ===================================================================== *)

Section SequenceErrors.
Variable compact : list jsval -> list jsval.
Variable sub : list (result jsval).

Abbreviation gives_value := (gives_value sub).
Abbreviation values_among := (values_among sub).

Lemma values_among_permutation l l' :
  Permutation l l' -> values_among l = values_among l'.
Proof.
  induction 1 as [|x l l' _ IH|x y l|l l' l'' _ IH1 _ IH2]; cbn [values_among]; lia.
Qed.

Lemma values_among_le l : (values_among l <= length l)%nat.
Proof.
  induction l as [|i rest IH]; cbn [values_among length]; [lia|].
  destruct (gives_value i); lia.
Qed.

Lemma values_among_lt l i :
  In i l -> gives_value i = false -> (values_among l < length l)%nat.
Proof.
  induction l as [|j rest IH]; intros Hin Hi; [destruct Hin|].
  cbn [values_among length]. destruct Hin as [->|Hin].
  - rewrite Hi. pose proof (values_among_le rest). lia.
  - specialize (IH Hin Hi). destruct (gives_value j); lia.
Qed.

Lemma element_done_fold l s :
  (Z.of_nat (values_among l) < seq_pending s)%Z ->
  seq_calls (fold_left (element_done compact sub) l s) = seq_calls s ++ failures l sub /\
  seq_pending (fold_left (element_done compact sub) l s) =
    (seq_pending s - Z.of_nat (values_among l))%Z.
Proof.
  revert s. induction l as [|i rest IH]; intros s Hlt.
  - cbn [fold_left failures omap list_omap values_among].
    rewrite app_nil_r. split; [reflexivity|lia].
  - cbn [fold_left values_among] in *. unfold failures. cbn [omap list_omap].
    fold (failures rest sub). unfold gives_value in *.
    unfold element_done at 2 4.
    destruct (sub !! i) as [[obj|e]|] eqn:E.
    + destruct (IH {| seq_out := js_array_set (seq_out s) i obj;
                      seq_pending := (seq_pending s - 1)%Z;
                      seq_calls := seq_calls s ++
                        (if Z.eqb (seq_pending s - 1) 0
                         then [Ok (JArr (compact (js_array_set (seq_out s) i obj)))]
                         else []) |}) as [H1 H2]; [cbn [seq_pending]; lia|].
      cbn [seq_calls seq_pending] in H1, H2. rewrite H1, H2.
      destruct (Z.eqb_spec (seq_pending s - 1) 0) as [H0|_]; [lia|].
      rewrite app_nil_r. split; [reflexivity|lia].
    + destruct (IH {| seq_out := seq_out s; seq_pending := seq_pending s;
                      seq_calls := seq_calls s ++ [Err e] |}) as [H1 H2];
        [cbn [seq_pending]; lia|].
      cbn [seq_calls seq_pending] in H1, H2. rewrite H1, H2, <- app_assoc.
      split; [reflexivity|lia].
    + destruct (IH s) as [H1 H2]; [lia|]. rewrite H1, H2. split; [reflexivity|lia].
Qed.

Lemma failures_in (l : list nat) i e :
  In i l -> sub !! i = Some (Err e) -> In (Err e) (failures l sub).
Proof.
  intros Hin Hi. unfold failures. apply list_elem_of_In, list_elem_of_omap.
  exists i. split; [apply list_elem_of_In, Hin|]. rewrite Hi. reflexivity.
Qed.

Lemma failures_are_errors (l : list nat) r :
  In r (failures l sub) -> exists e, r = Err e.
Proof.
  unfold failures. intros Hin. apply list_elem_of_In, list_elem_of_omap in Hin.
  destruct Hin as (i & _ & Hi). destruct (sub !! i) as [[obj|e]|]; try discriminate.
  injection Hi as <-. eauto.
Qed.

Lemma walk_elements_with_a_failure (completion : list nat) i e :
  Permutation completion (seq 0 (length sub)) ->
  sub !! i = Some (Err e) ->
  walk_elements compact completion sub = failures completion sub /\
  In (Err e) (walk_elements compact completion sub).
Proof.
  intros Hperm Hi.
  assert (Hin : In i completion).
  { eapply Permutation_in; [symmetry; exact Hperm|].
    apply in_seq. apply lookup_lt_Some in Hi. lia. }
  assert (Hcount : (values_among completion < length sub)%nat).
  { rewrite <- (length_seq (length sub) 0), <- (Permutation_length Hperm).
    apply (values_among_lt completion i Hin). unfold gives_value. rewrite Hi.
    reflexivity. }
  assert (Hgoal : walk_elements compact completion sub = failures completion sub).
  { unfold walk_elements. destruct sub as [|r0 rest] eqn:Esub; [discriminate Hi|].
    rewrite <- Esub in *.
    destruct (element_done_fold completion
                {| seq_out := []; seq_pending := Z.of_nat (length sub);
                   seq_calls := [] |}) as [H1 _]; [cbn [seq_pending]; lia|].
    exact H1. }
  split; [exact Hgoal|]. rewrite Hgoal. exact (failures_in completion i e Hin Hi).
Qed.

End SequenceErrors.

Section LeafFacts.
Variable doc : Type.
Variable isObject : jsval -> bool.
Variable settling : nat -> list nat.
Variable root : option string -> jsval.
Variable compact : list jsval -> list jsval.
Variable resolve : source doc -> jsval -> jsval -> jsval.
Variable call_function : nat -> doc -> result jsval.
Variable doc_text : doc -> string.
Variable regexp_match : nat -> string -> option (list jsval).
Variable find : doc -> option string -> list doc.
Variable xray : option string -> jsval -> doc -> result jsval.
Variable order : nat -> list nat.
Variable customTypes : list (string * typeConfig doc).
Variable strictMode : bool.
Variable scope : option string.

Abbreviation leaf__ :=
  (leaf doc root compact resolve call_function doc_text regexp_match find xray
        order customTypes strictMode scope).

(** X9.  A sequence of mappings gives no partial result: when the
    sub-walk of one element fails, the callback is never called with a
    value, only with the errors of the failing elements, one call for
    each, in the order in which the sub-walks call back; the walk is
    done with the first of them. *)
Theorem sequence_with_a_failing_element_fails :
  forall (ctx : doc) (v : jsval) (k : okey) (i : nat) (e : jserror),
    isArray v = true ->
    typeof_is (index0 v) "object" = true ->
    custom_find doc customTypes v = None ->
    Permutation (order (length (find ctx scope))) (seq 0 (length (find ctx scope))) ->
    map (xray scope (index0 v)) (find ctx scope) !! i = Some (Err e) ->
    leaf__ ctx v k =
      failures (order (length (find ctx scope)))
               (map (xray scope (index0 v)) (find ctx scope)) /\
    In (Err e) (leaf__ ctx v k) /\
    (forall r, In r (leaf__ ctx v k) -> exists e', r = Err e') /\
    exists e', walk_done (walk isObject settling (leaf__ ctx) v k) = Some (Err e').
Proof.
  intros ctx v k i e Harr Hobj Hcustom Hperm Hi.
  destruct v as [| | | | | | |items|]; try discriminate Harr.
  assert (Hstr : typeof_is (index0 (JArr items)) "string" = false).
  { unfold typeof_is in *. apply bool_decide_eq_true in Hobj.
    apply bool_decide_eq_false. rewrite Hobj. discriminate. }
  assert (Hleaf : leaf__ ctx (JArr items) k =
                  walk_elements compact (order (length (find ctx scope)))
                    (map (xray scope (index0 (JArr items))) (find ctx scope))).
  { unfold leaf. rewrite Hcustom. unfold leaf_array_or_unknown.
    rewrite Hstr, Hobj. reflexivity. }
  rewrite <- (length_map (xray scope (index0 (JArr items)))) in Hperm at 2.
  destruct (walk_elements_with_a_failure compact _ _ i e Hperm Hi) as [Heq Hin].
  rewrite Hleaf, Heq. rewrite Heq in Hin.
  split; [reflexivity|]. split; [exact Hin|].
  split; [intros r Hr; exact (failures_are_errors _ _ r Hr)|].
  rewrite walk_not_plain by (apply not_plain_of_ctor; reflexivity).
  unfold visit. cbn [walk_done]. rewrite Hleaf, Heq. unfold settle.
  destruct (failures _ _) as [|r rest] eqn:E; [destruct Hin|].
  assert (Hr : In r (failures (order (length (find ctx scope)))
                              (map (xray scope (index0 (JArr items))) (find ctx scope)))).
  { rewrite E. left. reflexivity. }
  destruct (failures_are_errors _ _ r Hr) as [e' ->].
  exists e'. reflexivity.
Qed.

End LeafFacts.

Lemma sequence_with_a_failing_element_fails_witness :
  let v := JArr [JObj CtorObject [("title", JStr "h1")]] in
  Site.order 3 = [2; 1; 0]%nat /\
  map (flaky (Some "li") (index0 v)) (Site.find 1 (Some "li")) =
    [Ok (JObj CtorObject [("title", JStr "a")]); Err (Failure 11); Err (Failure 12)] /\
  leaf Site.page Site.root Site.compact Site.resolve Site.call_function
       Site.doc_text Site.regexp_match Site.find flaky Site.order
       Site.customTypes false (Some "li") 1%nat v (Some "items")
    = [Err (Failure 12); Err (Failure 11)].
Proof.
  intros v. split; [reflexivity|]. split; [reflexivity|].
  refine (proj1 (sequence_with_a_failing_element_fails
                   Site.page Site.isObject Site.settling Site.root Site.compact
                   Site.resolve Site.call_function Site.doc_text Site.regexp_match
                   Site.find flaky Site.order Site.customTypes false (Some "li")
                   1%nat v (Some "items") 1%nat (Failure 11)
                   eq_refl eq_refl eq_refl _ eq_refl)).
  change (Site.order (length (Site.find 1 (Some "li")))) with (rev (seq 0 3)).
  symmetry. apply Permutation_rev.
Defined.

(* ===================================================================== *)
(** ** The reach of custom types *)
(* ===================================================================== *)

Section WalkExt.
Variable isObject : jsval -> bool.
Variable settling : nat -> list nat.
Variables f g : jsval -> okey -> list (result jsval).
Hypothesis same : forall v k, f v k = g v k.

Lemma walk_ext v key : walk isObject settling f v key = walk isObject settling g v key.
Proof.
  revert key.
  induction v as [| | | | | | |items IH|c props IH] using jsval_nested_ind; intros key;
    try (rewrite !walk_not_plain by (apply not_plain_of_ctor; reflexivity);
         unfold visit; rewrite same; reflexivity).
  destruct (isPlainObject isObject (JObj c props)) eqn:E.
  - rewrite !walk_plain by exact E. f_equal. unfold walk_children. clear E.
    induction props as [|[k x] rest IHrest]; [reflexivity|].
    inversion IH as [|? ? Hx Hrest]; subst.
    cbn [map fst snd] in *. rewrite (Hx (Some k)), (IHrest Hrest). reflexivity.
  - rewrite !walk_not_plain by exact E. unfold visit. rewrite same. reflexivity.
Qed.

End WalkExt.

Section ValidatorExt.
Variables cts cts' : validators.
Hypothesis same : forall x, custom_match cts x = custom_match cts' x.

Lemma validateType_ext v p : validateType cts v p = validateType cts' v p.
Proof.
  revert p.
  induction v as [| | | | | | |items IH|c props IH] using jsval_nested_ind;
    intros p; try reflexivity.
  - cbn [validateType]. rewrite same. reflexivity.
  - cbn [validateType]. rewrite same. reflexivity.
  - destruct items as [|first rest]; [reflexivity|].
    inversion IH as [|? ? Hfirst _]; subst.
    destruct first as [| | | | | | |inner|c [|k ps]]; try reflexivity.
    rewrite !validateType_array_object, Hfirst. reflexivity.
  - destruct props as [|kv ps]; [reflexivity|].
    rewrite !validateType_mapping. f_equal.
    induction IH as [|[k x] rest Hx _ IHrest]; [reflexivity|].
    cbn [map fst snd] in *. rewrite Hx, IHrest. reflexivity.
Qed.

End ValidatorExt.

Section CustomTypeFacts.
Variable doc : Type.
Variable isObject : jsval -> bool.
Variable settling : nat -> list nat.
Variable root : option string -> jsval.
Variable compact : list jsval -> list jsval.
Variable resolve : source doc -> jsval -> jsval -> jsval.
Variable call_function : nat -> doc -> result jsval.
Variable doc_text : doc -> string.
Variable regexp_match : nat -> string -> option (list jsval).
Variable find : doc -> option string -> list doc.
Variable xray : option string -> jsval -> doc -> result jsval.
Variable order : nat -> list nat.
Variable strictMode : bool.
Variable selector : jsval.
Variable scope : option string.

Abbreviation leaf_with cts :=
  (leaf doc root compact resolve call_function doc_text regexp_match find xray
        order cts strictMode scope).
Abbreviation walkHTML_with cts :=
  (walkHTML doc isObject settling root compact resolve call_function doc_text
            regexp_match find xray order cts strictMode selector scope).
Abbreviation usable cts := (List.filter (has_validator doc) cts).

Lemma custom_find_usable cts v :
  custom_find doc cts v = custom_find doc (usable cts) v.
Proof.
  induction cts as [|[name cfg] rest IH]; [reflexivity|].
  cbn [custom_find List.filter]. unfold has_validator at 1. cbn [snd].
  destruct (validator doc cfg) as [accepts|] eqn:E; [|exact IH].
  cbn [custom_find]. rewrite E, IH. reflexivity.
Qed.

Lemma custom_match_usable cts x :
  custom_match (validators_of doc cts) x =
  custom_match (validators_of doc (usable cts)) x.
Proof.
  unfold validators_of. induction cts as [|[name cfg] rest IH]; [reflexivity|].
  cbn [map List.filter fst snd custom_match]. unfold has_validator at 1. cbn [snd].
  destruct (validator doc cfg) as [accepts|] eqn:E; [|exact IH].
  cbn [map fst snd custom_match]. rewrite E, IH. reflexivity.
Qed.

Lemma leaf_usable cts ctx v k : leaf_with cts ctx v k = leaf_with (usable cts) ctx v k.
Proof.
  unfold leaf, leaf_array_or_unknown.
  rewrite <- (custom_find_usable cts v).
  rewrite (validateType_ext _ _ (custom_match_usable cts) v (default EmptyString k)).
  reflexivity.
Qed.

(** X10.  What custom types can and cannot do in a walk.  An entry
    registered without a validator is never selected: the callback, and
    with it [walkHTML] as a whole, behaves as if the entry were not
    there.  And no entry takes over a value the callback knows: for
    [null], [undefined], a string, a function or a regular expression
    the answer is the same whatever is registered. *)
Theorem custom_types_without_validator_are_inert :
  forall (customTypes : list (string * typeConfig doc)) (ctx : doc),
    (forall v k, leaf_with customTypes ctx v k = leaf_with (usable customTypes) ctx v k) /\
    walkHTML_with customTypes ctx = walkHTML_with (usable customTypes) ctx /\
    (forall v k, builtin_selector v = true ->
                 leaf_with customTypes ctx v k = leaf_with [] ctx v k) /\
    (forall v, custom_find doc customTypes v = None ->
               Forall (fun nc => match validator doc (snd nc) with
                                 | Some accepts => accepts v = false
                                 | None => True
                                 end) customTypes).
Proof.
  intros customTypes ctx. split; [intros v k; apply leaf_usable|].
  split; [|split].
  - unfold walkHTML, assertValidType.
    rewrite (validateType_ext _ _ (custom_match_usable customTypes) selector "selector").
    rewrite (walk_ext isObject settling _ _ (leaf_usable customTypes ctx) selector None).
    reflexivity.
  - intros v k Hv. destruct v; try discriminate Hv; reflexivity.
  - intros v. induction customTypes as [|[name cfg] rest IH]; [constructor|].
    cbn [custom_find]. destruct (validator doc cfg) as [accepts|] eqn:E.
    + destruct (accepts v) eqn:Ea; [discriminate|].
      intros H. constructor; [cbn [snd]; rewrite E; exact Ea|exact (IH H)].
    + intros H. constructor; [cbn [snd]; rewrite E; exact I|exact (IH H)].
Qed.

End CustomTypeFacts.

(* ===================================================================== *)
(** ** More of the pagination cycle *)
(* ===================================================================== *)

Section StreamCallFacts.
Context {doc : Type}.

Lemma stream_calls_app (a b : list (event doc)) :
  stream_calls (a ++ b) = stream_calls a ++ stream_calls b.
Proof.
  induction a as [|e a IH]; [reflexivity|].
  destruct e; cbn [app stream_calls]; rewrite IH; reflexivity.
Qed.

Lemma stream_calls_streamed (tr : list (event doc)) :
  map fst (stream_calls tr) = streamed tr.
Proof.
  induction tr as [|e tr IH]; [reflexivity|].
  destruct e; cbn [stream_calls streamed map fst]; rewrite ?IH; reflexivity.
Qed.

Lemma stream_calls_none (tr : list (event doc)) :
  streamed tr = [] -> stream_calls tr = [].
Proof.
  rewrite <- stream_calls_streamed. destruct (stream_calls tr); [reflexivity|discriminate].
Qed.

End StreamCallFacts.

Section MorePagination.
Variable doc : Type.
Variable isObject : jsval -> bool.
Variable isUrl : jsval -> bool.
Variable settling : nat -> list nat.
Variable root : option string -> jsval.
Variable compact : list jsval -> list jsval.
Variable resolve : source doc -> jsval -> jsval -> jsval.
Variable call_function : nat -> doc -> result jsval.
Variable doc_text : doc -> string.
Variable regexp_match : nat -> string -> option (list jsval).
Variable find : doc -> option string -> list doc.
Variable xray : option string -> jsval -> doc -> result jsval.
Variable order : nat -> list nat.
Variable request : jsval -> result jsval.
Variable load : source doc -> option jsval -> doc.
Variable customTypes : list (string * typeConfig doc).
Variable strictMode : bool.
Variable selector : jsval.
Variable scope : option string.
(** [JSON.stringify] as the stream helper calls it, and whether the
    helper was made with a stream. *)
Variable stringify : jsval -> option string.
Variable attached : bool.

Abbreviation next_ := (next doc isUrl resolve).
Abbreviation fetch_ :=
  (fetch doc isObject settling root compact resolve call_function doc_text regexp_match
         find xray order request load customTypes strictMode selector scope).
Abbreviation cycle_ :=
  (cycle doc isObject isUrl settling root compact resolve call_function doc_text regexp_match
         find xray order request load customTypes strictMode selector scope).
Abbreviation node_ :=
  (node doc isObject isUrl settling root compact resolve call_function doc_text regexp_match
        find xray order request load customTypes strictMode selector scope).
Abbreviation first_page_ :=
  (first_page doc isObject isUrl settling root compact resolve call_function doc_text
              regexp_match find xray order request load customTypes strictMode
              selector scope).
Abbreviation final_state_ :=
  (final_state doc isObject isUrl settling root compact resolve call_function doc_text
               regexp_match find xray order request load customTypes strictMode
               selector scope).
Abbreviation node_state_ :=
  (node_state doc isObject isUrl settling root compact resolve call_function doc_text
              regexp_match find xray order request load customTypes strictMode
              selector scope).
Abbreviation chain_ :=
  (chain doc isObject isUrl settling root compact resolve call_function doc_text
         regexp_match find xray order request load customTypes strictMode
         selector scope).
Abbreviation next_url st ctx := (resolve (SrcDoc ctx) (JBool false) (st_paginate st)).

(** *** The closing write *)

Lemma next_ends st obj ctx :
  snd (next_ st (SigOk obj ctx)) = None ->
  (exists v, reports (snd (fst (next_ st (SigOk obj ctx)))) = [Ok v]) /\
  stream_calls (snd (fst (next_ st (SigOk obj ctx)))) = [(obj, true)].
Proof.
  rewrite next_page.
  destruct (truthy (st_paginate st)); [|intros _; split; [eexists|]; reflexivity].
  cbv zeta.
  destruct (lim_le0 (lim_pred (st_limit st)) || negb (isUrl (next_url st ctx)));
    [intros _; split; [eexists|]; reflexivity|].
  destruct (st_abort st) as [abort|]; [|discriminate].
  destruct (abort obj (next_url st ctx)); [|discriminate].
  intros _; split; [eexists|]; reflexivity.
Qed.

Lemma next_goes_on st obj ctx url :
  snd (next_ st (SigOk obj ctx)) = Some url ->
  reports (snd (fst (next_ st (SigOk obj ctx)))) = [] /\
  stream_calls (snd (fst (next_ st (SigOk obj ctx)))) = [(obj, false)].
Proof.
  rewrite next_page.
  destruct (truthy (st_paginate st)); [|discriminate].
  cbv zeta.
  destruct (lim_le0 (lim_pred (st_limit st)) || negb (isUrl (next_url st ctx)));
    [discriminate|].
  destruct (st_abort st) as [abort|]; [|intros _; split; reflexivity].
  destruct (abort obj (next_url st ctx)); [discriminate|].
  intros _; split; reflexivity.
Qed.

Lemma cycle_closing_write fuel st sig :
  match reports (fst (cycle_ fuel st sig)) with
  | [Ok _] => closed_by_last (stream_calls (fst (cycle_ fuel st sig)))
  | _ => never_closed (stream_calls (fst (cycle_ fuel st sig)))
  end.
Proof.
  revert st sig. induction fuel as [|fuel IH]; intros st [[err|obj ctx]|];
    try (rewrite cycle_stalled; constructor);
    try (rewrite cycle_on_error; constructor).
  - rewrite cycle_zero. cbn [fst].
    destruct (snd (next_ st (SigOk obj ctx))) as [url|] eqn:Hc.
    + destruct (next_goes_on st obj ctx url Hc) as [-> ->]. repeat constructor.
    + destruct (next_ends st obj ctx Hc) as [[v ->] ->]. exists [], obj. reflexivity.
  - rewrite cycle_step.
    destruct (snd (next_ st (SigOk obj ctx))) as [url|] eqn:Hc; cbn [fst].
    + destruct (next_goes_on st obj ctx url Hc) as [Hr Hs].
      destruct (fetch_events doc isObject settling root compact resolve call_function
                  doc_text regexp_match find xray order request load customTypes
                  strictMode selector scope url) as (Hfr & _ & Hfs & _).
      rewrite !reports_app, !stream_calls_app, Hr, Hs, Hfr,
        (stream_calls_none _ Hfs). cbn [app].
      specialize (IH (fst (fst (next_ st (SigOk obj ctx)))) (snd (fetch_ url))).
      destruct (reports _) as [|[v|e] [|r rest]];
        try (constructor; [reflexivity|exact IH]).
      destruct IH as (pre & last & ->). exists (obj :: pre), last. reflexivity.
    + destruct (next_ends st obj ctx Hc) as [[v ->] ->]. exists [], obj. reflexivity.
Qed.

Lemma node_closing_write fuel st src :
  match reports (fst (node_ fuel st src)) with
  | [Ok _] => closed_by_last (stream_calls (fst (node_ fuel st src)))
  | _ => never_closed (stream_calls (fst (node_ fuel st src)))
  end.
Proof.
  rewrite node_unfold. cbn [fst].
  destruct (first_page_events doc isObject isUrl settling root compact resolve
              call_function doc_text regexp_match find xray order request load
              customTypes strictMode selector scope src) as (Hr & Hs & _).
  rewrite reports_app, stream_calls_app, Hr, (stream_calls_none _ Hs). cbn [app].
  apply cycle_closing_write.
Qed.

(** X11.  The stream is closed exactly when a value is reported, in a
    run whose calls of the stream helper all return: when the run
    reports a value, [stream(obj, true)] is called once, as the last
    call of the stream, every call before it being [stream(obj)]; when
    it reports an error, or nothing at all, there is no closing call. *)
Theorem stream_is_closed_exactly_on_success :
  forall (fuel : nat) (st : state) (src : source doc),
    stream_returns stringify attached st (fst (node_ fuel st src)) ->
    match reports (fst (node_ fuel st src)) with
    | [Ok _] => closed_by_last (stream_calls (fst (node_ fuel st src)))
    | _ => never_closed (stream_calls (fst (node_ fuel st src)))
    end.
Proof. intros fuel st src _. apply node_closing_write. Qed.

(** *** How many pages a limit gives *)

Lemma cycle_ends fuel st sig :
  snd (next_ st sig) = None ->
  cycle_ fuel st (Some sig) = (snd (fst (next_ st sig)), Finished).
Proof.
  intros H. destruct fuel; [rewrite cycle_zero|rewrite cycle_step]; rewrite H; reflexivity.
Qed.

Lemma cycle_goes_on fuel st sig url :
  snd (next_ st sig) = Some url ->
  cycle_ (S fuel) st (Some sig) =
    (snd (fst (next_ st sig)) ++ fst (fetch_ url) ++
       fst (cycle_ fuel (fst (fst (next_ st sig))) (snd (fetch_ url))),
     snd (cycle_ fuel (fst (fst (next_ st sig))) (snd (fetch_ url)))).
Proof. intros H. rewrite cycle_step, H. reflexivity. Qed.

(** The state a successful page leaves. *)
Lemma next_state st obj ctx :
  st_paginate (fst (fst (next_ st (SigOk obj ctx)))) = st_paginate st /\
  st_abort (fst (fst (next_ st (SigOk obj ctx)))) = st_abort st /\
  st_limit (fst (fst (next_ st (SigOk obj ctx)))) = lim_pred (st_limit st) /\
  st_pages (fst (fst (next_ st (SigOk obj ctx)))) =
    (if truthy (st_paginate st) then accumulate (st_pages st) obj else st_pages st).
Proof.
  rewrite next_page. destruct (truthy (st_paginate st)); [|repeat split].
  cbv zeta.
  destruct (lim_le0 (lim_pred (st_limit st)) || negb (isUrl (next_url st ctx)));
    [repeat split|].
  destruct (st_abort st) as [abort|] eqn:Ha; [|repeat split].
  destruct (abort obj (next_url st ctx)); repeat split; cbn; auto.
Qed.

Lemma next_at_the_limit st obj ctx n :
  truthy (st_paginate st) = true ->
  st_limit st = Finite n ->
  (n <= 1)%Z ->
  snd (next_ st (SigOk obj ctx)) = None.
Proof.
  intros Hp Hl Hn. rewrite next_page, Hp, Hl. cbv zeta. cbn [lim_pred lim_le0].
  rewrite (proj2 (Z.leb_le (n - 1) 0)) by lia. reflexivity.
Qed.

Lemma next_below_the_limit st obj ctx n :
  truthy (st_paginate st) = true ->
  st_abort st = None ->
  st_limit st = Finite n ->
  (1 < n)%Z ->
  isUrl (next_url st ctx) = true ->
  snd (next_ st (SigOk obj ctx)) = Some (next_url st ctx).
Proof.
  intros Hp Ha Hl Hn Hu. rewrite next_page, Hp, Hl, Ha, Hu. cbv zeta.
  cbn [lim_pred lim_le0]. rewrite (proj2 (Z.leb_gt (n - 1) 0)) by lia. reflexivity.
Qed.

Lemma cycle_along_the_chain k :
  forall fuel st obj ctx n,
    truthy (st_paginate st) = true ->
    st_abort st = None ->
    st_limit st = Finite n ->
    Z.to_nat (n - 1) = k ->
    chain_ k (st_paginate st) ctx = true ->
    (k <= fuel)%nat ->
    snd (cycle_ fuel st (Some (SigOk obj ctx))) = Finished /\
    length (streamed (fst (cycle_ fuel st (Some (SigOk obj ctx))))) = S k /\
    length (requested (fst (cycle_ fuel st (Some (SigOk obj ctx))))) = k /\
    exists v, reports (fst (cycle_ fuel st (Some (SigOk obj ctx)))) = [Ok v].
Proof.
  induction k as [|k IH]; intros fuel st obj ctx n Hp Ha Hl Hk Hchain Hfuel.
  - assert (Hend : snd (next_ st (SigOk obj ctx)) = None).
    { apply (next_at_the_limit st obj ctx n Hp Hl). lia. }
    rewrite (cycle_ends fuel _ _ Hend). cbn [fst snd].
    destruct (next_ends st obj ctx Hend) as [Hr _].
    destruct (next_quiet doc isUrl resolve st (SigOk obj ctx)) as [Hq _].
    rewrite next_streams, Hq. repeat split. exact Hr.
  - cbn [chain] in Hchain. apply andb_true_iff in Hchain as [Hu Hchain].
    destruct (snd (fetch_ (next_url st ctx))) as [[err|obj' ctx']|] eqn:Hf;
      try discriminate Hchain.
    assert (Hgo : snd (next_ st (SigOk obj ctx)) = Some (next_url st ctx)).
    { apply (next_below_the_limit st obj ctx n Hp Ha Hl); [lia|exact Hu]. }
    destruct fuel as [|fuel]; [lia|].
    rewrite (cycle_goes_on fuel _ _ _ Hgo), Hf. cbn [fst snd].
    destruct (next_state st obj ctx) as (Hp' & Ha' & Hl' & _).
    destruct (IH fuel (fst (fst (next_ st (SigOk obj ctx)))) obj' ctx' (n - 1)%Z)
      as (Hs & Hlen & Hreq & v & Hrep).
    + rewrite Hp'. exact Hp.
    + rewrite Ha'. exact Ha.
    + rewrite Hl', Hl. reflexivity.
    + lia.
    + rewrite Hp'. exact Hchain.
    + lia.
    + destruct (next_goes_on st obj ctx _ Hgo) as [Hr0 _].
      destruct (next_quiet doc isUrl resolve st (SigOk obj ctx)) as [Hq _].
      destruct (fetch_events doc isObject settling root compact resolve call_function
                  doc_text regexp_match find xray order request load customTypes
                  strictMode selector scope (next_url st ctx)) as (Hfr & Hfq & Hfs & _).
      rewrite !streamed_app, !requested_app, !reports_app, !length_app.
      rewrite next_streams, Hq, Hr0, Hfr, Hfq, Hfs, Hlen, Hreq, Hrep.
      cbn [length app Nat.add].
      split; [exact Hs|]. split; [reflexivity|]. split; [reflexivity|].
      eexists; reflexivity.
Qed.

(** X12.  A limit of [n] gives [n] pages when the site has them: with
    no abort predicate, if each of the next [n - 1] pages resolves to a
    URL whose request and walk succeed, and the write of every page to
    the stream returns, the run completes exactly [n] pages with [n - 1]
    further requests and reports a value.  A limit of one, of zero or
    below zero gives one page: the first page is always completed. *)
Theorem limit_pages_are_walked_when_the_site_has_them :
  forall (fuel : nat) (st : state) (obj : jsval) (ctx : doc) (n : Z),
    truthy (st_paginate st) = true ->
    st_abort st = None ->
    st_limit st = Finite n ->
    chain_ (Z.to_nat (n - 1)) (st_paginate st) ctx = true ->
    (Z.to_nat (n - 1) <= fuel)%nat ->
    Forall (fun page => write_returns stringify attached page = true)
           (streamed (fst (cycle_ fuel st (Some (SigOk obj ctx))))) ->
    snd (cycle_ fuel st (Some (SigOk obj ctx))) = Finished /\
    length (streamed (fst (cycle_ fuel st (Some (SigOk obj ctx))))) =
      Z.to_nat (Z.max 1 n) /\
    length (requested (fst (cycle_ fuel st (Some (SigOk obj ctx))))) =
      Z.to_nat (n - 1) /\
    exists v, reports (fst (cycle_ fuel st (Some (SigOk obj ctx)))) = [Ok v].
Proof.
  intros fuel st obj ctx n Hp Ha Hl Hchain Hfuel _.
  destruct (cycle_along_the_chain (Z.to_nat (n - 1)) fuel st obj ctx n
              Hp Ha Hl eq_refl Hchain Hfuel) as (H1 & H2 & H3 & H4).
  repeat split; [exact H1|rewrite H2; lia|exact H3|exact H4].
Qed.

(** *** What outlives a run *)

Lemma final_state_stalled fuel st : final_state_ fuel st None = st.
Proof. destruct fuel; reflexivity. Qed.

Lemma final_state_step fuel st sig :
  final_state_ (S fuel) st (Some sig) =
  match snd (next_ st sig) with
  | None => fst (fst (next_ st sig))
  | Some url => final_state_ fuel (fst (fst (next_ st sig))) (snd (fetch_ url))
  end.
Proof.
  cbn [final_state]. destruct (next_ st sig) as [[st' evs] [url|]]; reflexivity.
Qed.

Lemma final_state_zero st sig :
  final_state_ 0 st (Some sig) = fst (fst (next_ st sig)).
Proof.
  cbn [final_state]. destruct (next_ st sig) as [[st' evs] [url|]]; reflexivity.
Qed.

Lemma final_state_spec fuel st sig :
  st_paginate (final_state_ fuel st sig) = st_paginate st /\
  st_abort (final_state_ fuel st sig) = st_abort st /\
  st_limit (final_state_ fuel st sig) =
    Nat.iter (length (streamed (fst (cycle_ fuel st sig)))) lim_pred (st_limit st) /\
  st_pages (final_state_ fuel st sig) =
    (if truthy (st_paginate st)
     then fold_left accumulate (streamed (fst (cycle_ fuel st sig))) (st_pages st)
     else st_pages st).
Proof.
  revert st sig. induction fuel as [|fuel IH]; intros st [[err|obj ctx]|];
    try (rewrite final_state_stalled, cycle_stalled; cbn;
         destruct (truthy (st_paginate st)); repeat split);
    try (rewrite cycle_on_error; cbn;
         destruct (truthy (st_paginate st)); repeat split).
  - rewrite final_state_zero, cycle_zero. cbn [fst]. rewrite next_streams.
    destruct (next_state st obj ctx) as (H1 & H2 & H3 & H4).
    cbn [length Nat.iter fold_left]. repeat split; assumption.
  - rewrite final_state_step, cycle_step.
    destruct (next_state st obj ctx) as (H1 & H2 & H3 & H4).
    destruct (snd (next_ st (SigOk obj ctx))) as [url|] eqn:Hc; cbn [fst].
    + destruct (fetch_events doc isObject settling root compact resolve call_function
                  doc_text regexp_match find xray order request load customTypes
                  strictMode selector scope url) as (_ & _ & Hfs & _).
      destruct (IH (fst (fst (next_ st (SigOk obj ctx)))) (snd (fetch_ url)))
        as (I1 & I2 & I3 & I4).
      rewrite !streamed_app, next_streams, Hfs. cbn [app length fold_left].
      rewrite I1, I2, I3, I4, H1, H2, H3, H4, Nat.iter_succ_r.
      destruct (truthy (st_paginate st)); repeat split.
    + rewrite next_streams. cbn [length Nat.iter fold_left].
      repeat split; assumption.
Qed.

Lemma node_streamed fuel st src :
  streamed (fst (node_ fuel st src)) =
  streamed (fst (cycle_ fuel st (snd (first_page_ src)))).
Proof.
  rewrite node_unfold. cbn [fst].
  destruct (first_page_events doc isObject isUrl settling root compact resolve
              call_function doc_text regexp_match find xray order request load
              customTypes strictMode selector scope src) as (_ & Hs & _).
  rewrite streamed_app, Hs. reflexivity.
Qed.

Lemma node_reports fuel st src :
  reports (fst (node_ fuel st src)) =
  reports (fst (cycle_ fuel st (snd (first_page_ src)))).
Proof.
  rewrite node_unfold. cbn [fst].
  destruct (first_page_events doc isObject isUrl settling root compact resolve
              call_function doc_text regexp_match find xray order request load
              customTypes strictMode selector scope src) as (Hr & _ & _).
  rewrite reports_app, Hr. reflexivity.
Qed.

(** X13.  The pages and the limit belong to the node, not to the run:
    a node that is run again starts from what the earlier run left.  Its
    limit has gone down by one for every page the earlier run completed
    and is not restored, and the value a paginated second run reports
    holds the pages of both runs. *)
Theorem pages_and_limit_outlive_the_run :
  forall (fuel1 fuel2 : nat) (st : state) (src1 src2 : source doc),
    truthy (st_paginate st) = true ->
    st_limit (node_state_ fuel1 st src1) =
      Nat.iter (length (streamed (fst (node_ fuel1 st src1)))) lim_pred (st_limit st) /\
    st_pages (node_state_ fuel1 st src1) =
      fold_left accumulate (streamed (fst (node_ fuel1 st src1))) (st_pages st) /\
    forall v,
      In (Ok v) (reports (fst (node_ fuel2 (node_state_ fuel1 st src1) src2))) ->
      v = JArr (fold_left accumulate
                  (streamed (fst (node_ fuel1 st src1)) ++
                   streamed (fst (node_ fuel2 (node_state_ fuel1 st src1) src2)))
                  (st_pages st)).
Proof.
  intros fuel1 fuel2 st src1 src2 Hp. unfold node_state.
  destruct (final_state_spec fuel1 st (snd (first_page_ src1))) as (H1 & _ & H3 & H4).
  rewrite Hp in H4. rewrite !node_streamed, node_reports.
  split; [exact H3|]. split; [exact H4|].
  intros v Hin. rewrite fold_left_app, <- H4.
  apply (cycle_reports_pages doc isObject isUrl settling root compact resolve
           call_function doc_text regexp_match find xray order request load
           customTypes strictMode selector scope fuel2 _ _ v); [|exact Hin].
  rewrite H1. exact Hp.
Qed.

(** *** Without pagination *)

Lemma node_without_paginate fuel st src :
  truthy (st_paginate st) = false ->
  node_ fuel st src =
    (fst (first_page_ src) ++
       match snd (first_page_ src) with
       | None => []
       | Some (SigErr err) => [EvReport (Err err)]
       | Some (SigOk obj _) => [EvStream obj true; EvReport (Ok obj)]
       end,
     match snd (first_page_ src) with None => Stalled | Some _ => Finished end).
Proof.
  intros Hp. rewrite node_unfold. destruct (snd (first_page_ src)) as [[err|obj ctx]|].
  - rewrite cycle_on_error. reflexivity.
  - assert (Hend : snd (next_ st (SigOk obj ctx)) = None).
    { rewrite next_page, Hp. reflexivity. }
    rewrite (cycle_ends fuel _ _ Hend). rewrite next_page, Hp. reflexivity.
  - rewrite cycle_stalled. reflexivity.
Qed.

(** X14.  Without a pagination selector the limit and the abort
    predicate are not consulted: whatever they are, and whatever pages
    an earlier run left, the run, when its call of the stream helper
    returns, makes no request after the first page, never calls the
    abort predicate, and reports the value of the first page itself,
    after one closing write of it. *)
Theorem without_paginate_only_the_first_page :
  forall (fuel : nat) (st : state) (src : source doc),
    truthy (st_paginate st) = false ->
    stream_returns stringify attached st (fst (node_ fuel st src)) ->
    node_ fuel st src =
      (fst (first_page_ src) ++
         match snd (first_page_ src) with
         | None => []
         | Some (SigErr err) => [EvReport (Err err)]
         | Some (SigOk obj _) => [EvStream obj true; EvReport (Ok obj)]
         end,
       match snd (first_page_ src) with None => Stalled | Some _ => Finished end) /\
    abort_calls (fst (node_ fuel st src)) = [] /\
    requested (fst (node_ fuel st src)) = requested (fst (first_page_ src)).
Proof.
  intros fuel st src Hp _.
  pose proof (node_without_paginate fuel st src Hp) as Hnode.
  split; [exact Hnode|]. rewrite Hnode. cbn [fst].
  destruct (first_page_events doc isObject isUrl settling root compact resolve
              call_function doc_text regexp_match find xray order request load
              customTypes strictMode selector scope src) as (_ & _ & Ha).
  rewrite abort_calls_app, requested_app, Ha.
  destruct (snd (first_page_ src)) as [[err|obj ctx]|]; cbn; rewrite ?app_nil_r;
    split; reflexivity.
Qed.

End MorePagination.


Lemma stream_is_closed_exactly_on_success_witness :
  let st := Site.paginated 2 None in
  let run := on_site node false Site.items None 5%nat st (SrcVal (Site.url_of 1)) in
  stream_returns render true st (fst run) /\
  stream_calls (fst run) =
    [(JArr [JStr "a"; JStr "b"; JStr "c"], false); (JArr [JStr "d"; JStr "e"], true)] /\
  closed_by_last (stream_calls (fst run)).
Proof.
  intros st run.
  assert (Hreturns : stream_returns render true st (fst run)).
  { right. repeat constructor. }
  split; [exact Hreturns|]. split; [reflexivity|].
  exact (on_site stream_is_closed_exactly_on_success false Site.items None
           render true 5%nat st (SrcVal (Site.url_of 1)) Hreturns).
Defined.

Lemma limit_pages_are_walked_when_the_site_has_them_witness :
  let st := Site.paginated 3 None in
  let first := JArr [JStr "a"; JStr "b"; JStr "c"] in
  let run := on_site cycle false Site.items None 5%nat st (Some (SigOk first 1%nat)) in
  on_site chain false Site.items None 2%nat (JStr ".next@href") 1%nat = true /\
  Forall (fun page => write_returns render true page = true) (streamed (fst run)) /\
  (snd run = Finished /\
   length (streamed (fst run)) = 3%nat /\
   length (requested (fst run)) = 2%nat /\
   exists v, reports (fst run) = [Ok v]).
Proof.
  intros st first run. split; [reflexivity|].
  assert (Hfuel : (Z.to_nat (3 - 1) <= 5)%nat) by (cbn; lia).
  assert (Hreturns : Forall (fun page => write_returns render true page = true)
                            (streamed (fst run))).
  { repeat constructor. }
  split; [exact Hreturns|].
  exact (on_site limit_pages_are_walked_when_the_site_has_them false Site.items None
           render true 5%nat st first 1%nat 3%Z eq_refl eq_refl eq_refl eq_refl Hfuel
           Hreturns).
Defined.

Lemma without_paginate_only_the_first_page_witness :
  let st := {| st_paginate := JBool false; st_limit := Finite 0;
               st_abort := Some (fun _ _ => true); st_pages := [JStr "old"];
               st_stream := Some ArrayStream |} in
  let run := on_site node false Site.items None 5%nat st (SrcVal (Site.url_of 1)) in
  stream_returns render true st (fst run) /\
  reports (fst run) = [Ok (JArr [JStr "a"; JStr "b"; JStr "c"])] /\
  abort_calls (fst run) = [] /\
  requested (fst run) = [Site.url_of 1].
Proof.
  intros st run.
  assert (Hreturns : stream_returns render true st (fst run)).
  { right. repeat constructor. }
  destruct (on_site without_paginate_only_the_first_page false Site.items None
              render true 5%nat st (SrcVal (Site.url_of 1)) eq_refl Hreturns)
    as (_ & Habort & Hreq).
  split; [exact Hreturns|]. split; [reflexivity|]. split; [exact Habort|exact Hreq].
Defined.

Lemma pages_and_limit_outlive_the_run_witness :
  let st := Site.paginated 2 None in
  let src := SrcVal (Site.url_of 1) in
  let left := on_site node_state false Site.items None 5%nat st src in
  let again := on_site node false Site.items None 5%nat left src in
  st_limit left = Finite 0 /\
  reports (fst again) =
    [Ok (JArr [JStr "a"; JStr "b"; JStr "c"; JStr "d"; JStr "e";
               JStr "a"; JStr "b"; JStr "c"])] /\
  forall v, In (Ok v) (reports (fst again)) ->
            v = JArr [JStr "a"; JStr "b"; JStr "c"; JStr "d"; JStr "e";
                      JStr "a"; JStr "b"; JStr "c"].
Proof.
  intros st src left again.
  destruct (on_site pages_and_limit_outlive_the_run false Site.items None
              5%nat 5%nat st src src eq_refl) as (Hlimit & _ & Hpages).
  split; [exact Hlimit|]. split; [reflexivity|exact Hpages].
Defined.


(* ===================================================================== *)
(** ** The stream helpers *)
(* ===================================================================== *)

Lemma append_assoc_ (a b c : string) : (a +:+ b) +:+ c = a +:+ (b +:+ c).
Proof.
  induction a as [|ch a IH]; [reflexivity|].
  change (String ch ((a +:+ b) +:+ c) = String ch (a +:+ (b +:+ c))).
  rewrite IH. reflexivity.
Qed.

Lemma append_nil_r_ (a : string) : a +:+ EmptyString = a.
Proof.
  induction a as [|ch a IH]; [reflexivity|].
  change (String ch (a +:+ EmptyString) = String ch a). rewrite IH. reflexivity.
Qed.

Lemma append_nil_l_ (a : string) : EmptyString +:+ a = a.
Proof. reflexivity. Qed.

Ltac flatten_text := rewrite ?append_assoc_, ?append_nil_r_, ?append_nil_l_.

Lemma sink_text_app (a b : list sink_op) :
  sink_text (a ++ b) = sink_text a +:+ sink_text b.
Proof.
  induction a as [|op a IH]; [reflexivity|].
  destruct op as [[chunk|]|[chunk|]|err]; cbn [app sink_text]; rewrite IH;
    flatten_text; reflexivity.
Qed.

Section StreamFacts.
Variable stringify : jsval -> option string.
Variable trim : string -> string.

Abbreviation blank_ := (blank trim).
Abbreviation rendering_ := (rendering stringify).
Abbreviation inner_ := (streamArrayInner stringify trim).
Abbreviation feed_ := (array_feed stringify trim).
Abbreviation unfinished pre := (map (fun d : jsval => (d, false)) pre).
Abbreviation solid frags := (List.filter (fun f => negb (blank_ f)) frags).

Lemma rendering_some data f :
  rendering_ data = Some f ->
  exists rendered, stringify data = Some rendered /\ fragment data rendered = f.
Proof.
  unfold rendering. destruct (stringify data) as [rendered|]; [|discriminate].
  intros [= <-]. eauto.
Qed.

(** A call that does not close: nothing for a blank fragment while
    nothing has been written, otherwise the fragment after the opening
    bracket or after a comma. *)
Lemma inner_write first data f :
  rendering_ data = Some f ->
  inner_ first data false =
    Some (if blank_ f then (first, if first then [] else [SinkWrite (Some f)])
          else (false,
                (if first then [SinkWrite (Some ("[" +:+ newline))]
                 else [SinkWrite (Some ",")]) ++ [SinkWrite (Some f)])).
Proof.
  intros Hr. apply rendering_some in Hr as (rendered & Hs & <-).
  unfold streamArrayInner. rewrite Hs.
  destruct first, (blank trim (fragment data rendered)); reflexivity.
Qed.

Lemma inner_close first data f :
  rendering_ data = Some f ->
  inner_ first data true =
    Some (false,
          (if first then [SinkWrite (Some ("[" +:+ newline))]
           else if blank_ f then [] else [SinkWrite (Some ",")]) ++
          [SinkEnd (Some (f +:+ "]"))]).
Proof.
  intros Hr. apply rendering_some in Hr as (rendered & Hs & <-).
  unfold streamArrayInner. rewrite Hs.
  destruct first, (blank trim (fragment data rendered)); reflexivity.
Qed.

Lemma array_feed_closed pre frags :
  Forall2 (fun d f => rendering_ d = Some f) pre frags ->
  forall first last lastfrag,
    rendering_ last = Some lastfrag ->
    Forall (fun f => blank_ f = true -> f = EmptyString) (frags ++ [lastfrag]) ->
    exists writes,
      feed_ first (unfinished pre ++ [(last, true)]) =
        (writes ++ [SinkEnd (Some (lastfrag +:+ "]"))], false) /\
      forallb is_write writes = true /\
      sink_text (writes ++ [SinkEnd (Some (lastfrag +:+ "]"))]) =
        (if first then "[" +:+ newline +:+ join_commas (solid (frags ++ [lastfrag]))
         else after_commas (solid (frags ++ [lastfrag]))) +:+ "]".
Proof.
  induction 1 as [|d f pre frags Hd _ IH]; intros first last lastfrag Hlast Hblank.
  - cbn [map app array_feed]. rewrite (inner_close first last lastfrag Hlast).
    cbn [app List.filter]. rewrite app_nil_r.
    inversion Hblank as [|? ? Hb _]; subst.
    exists (if first then [SinkWrite (Some ("[" +:+ newline))]
            else if blank_ lastfrag then [] else [SinkWrite (Some ",")]).
    split; [reflexivity|].
    destruct first, (blank_ lastfrag) eqn:E; cbn [negb];
      try rewrite (Hb eq_refl);
      (split; [reflexivity|]); cbn [app sink_text join_commas after_commas];
      flatten_text; reflexivity.
  - cbn [map app array_feed]. rewrite (inner_write first d f Hd).
    inversion Hblank as [|? ? Hb Hrest]; subst.
    cbn [app List.filter].
    destruct (blank_ f) eqn:E; cbn [negb].
    + specialize (Hb eq_refl). subst f.
      destruct (IH first last lastfrag Hlast Hrest) as (writes & Hfeed & Hw & Htext).
      rewrite Hfeed. destruct first.
      * exists writes. cbn [app]. repeat split; assumption.
      * exists (SinkWrite (Some EmptyString) :: writes). cbn [app]. split; [reflexivity|].
        split; [cbn [forallb is_write]; exact Hw|].
        cbn [sink_text]. rewrite Htext. flatten_text. reflexivity.
    + destruct (IH false last lastfrag Hlast Hrest) as (writes & Hfeed & Hw & Htext).
      rewrite Hfeed.
      exists ((if first then [SinkWrite (Some ("[" +:+ newline))]
               else [SinkWrite (Some ",")]) ++ SinkWrite (Some f) :: writes).
      split; [rewrite <- !app_assoc; reflexivity|].
      split; [destruct first; cbn [app forallb is_write]; exact Hw|].
      rewrite <- app_assoc. cbn [app].
      destruct first; cbn [app sink_text join_commas after_commas];
        rewrite Htext; flatten_text; reflexivity.
Qed.

(** X15.  What the array helper writes is the bracketed, comma-separated
    list of the fragments it was given.  Called for some pages and then
    once more with the closing flag, on values that all have a
    rendering, it does not throw; the stream receives writes only and
    then one [end]; and, blank fragments being empty, the text received
    reads [ then the fragments that are not blank, joined by commas,
    then ]: no comma stands first, last or doubled, whichever of the
    pages were empty. *)
Theorem array_stream_is_a_bracketed_list :
  forall (pre : list jsval) (frags : list string) (last : jsval) (lastfrag : string),
    Forall2 (fun d f => rendering_ d = Some f) pre frags ->
    rendering_ last = Some lastfrag ->
    Forall (fun f => blank_ f = true -> f = EmptyString) (frags ++ [lastfrag]) ->
    exists writes,
      streamArray stringify trim true (unfinished pre ++ [(last, true)]) =
        (writes ++ [SinkEnd (Some (lastfrag +:+ "]"))], false) /\
      forallb is_write writes = true /\
      sink_text (writes ++ [SinkEnd (Some (lastfrag +:+ "]"))]) =
        "[" +:+ newline +:+ join_commas (solid (frags ++ [lastfrag])) +:+ "]".
Proof.
  intros pre frags last lastfrag Hpre Hlast Hblank.
  destruct (array_feed_closed pre frags Hpre true last lastfrag Hlast Hblank)
    as (writes & Hfeed & Hw & Htext).
  exists writes. unfold streamArray. rewrite Htext, append_assoc_.
  repeat split; assumption.
Qed.

(** Calls that do not close give the stream no [end]. *)
Lemma array_feed_unfinished calls :
  never_closed calls ->
  forall first, forallb (fun op => negb (is_end op)) (fst (feed_ first calls)) = true.
Proof.
  induction 1 as [|[data finish] rest Hc _ IH]; intros first; [reflexivity|].
  cbn [snd] in Hc. subst finish. cbn [array_feed].
  destruct (inner_ first data false) as [[first' ops]|] eqn:E; [|reflexivity].
  specialize (IH first'). destruct (feed_ first' rest) as [more thrown].
  cbn [fst] in *. rewrite forallb_app, IH, andb_true_r.
  unfold streamArrayInner in E. destruct (stringify data) as [rendered|]; [|discriminate].
  destruct first, (blank trim (fragment data rendered)); cbn in E;
    injection E as <- <-; reflexivity.
Qed.

(** X18.  The array helper throws on a value that has no rendering,
    such as [undefined] or a function: once a call is made with such a
    value, on [json.trim()], the sequence of calls does not complete,
    whatever was written before and whether or not the call was the
    closing one. *)
Theorem array_stream_throws_without_a_rendering :
  forall (calls : list (jsval * bool)) (data : jsval) (finish first : bool),
    In (data, finish) calls ->
    stringify data = None ->
    inner_ first data finish = None /\
    snd (feed_ first calls) = true.
Proof.
  intros calls data finish first Hin Hnone.
  split; [unfold streamArrayInner; rewrite Hnone; reflexivity|].
  revert first. induction calls as [|[d f] rest IH]; intros first; [destruct Hin|].
  cbn [array_feed]. destruct (inner_ first d f) as [[first' ops]|] eqn:E; [|reflexivity].
  destruct Hin as [[= -> ->]|Hin].
  - unfold streamArrayInner in E. rewrite Hnone in E. discriminate E.
  - specialize (IH Hin first'). destruct (feed_ first' rest) as [more thrown].
    exact IH.
Qed.

(** [write_returns] is the condition under which the helper for arrays
    returns: made with a stream, it throws on exactly the values that
    have no rendering. *)
Lemma write_returns_spec attached data :
  write_returns stringify attached data = true <->
  (attached = true -> forall first finish, inner_ first data finish <> None).
Proof.
  unfold write_returns, streamArrayInner. destruct attached; cbn [negb orb].
  - destruct (stringify data) as [rendered|]; split.
    + intros _ _ first finish.
      destruct (first && blank trim (fragment data rendered) && negb finish);
        discriminate.
    + reflexivity.
    + discriminate.
    + intros H. exfalso. exact (H eq_refl true true eq_refl).
  - split; [discriminate|reflexivity].
Qed.

(** A sequence of calls on values the helper returns on completes. *)
Lemma array_feed_returns calls :
  Forall (fun c => write_returns stringify true (fst c) = true) calls ->
  forall first, snd (feed_ first calls) = false.
Proof.
  induction 1 as [|[data finish] rest Hc _ IH]; intros first; [reflexivity|].
  cbn [fst] in Hc. cbn [array_feed].
  destruct (inner_ first data finish) as [[first' ops]|] eqn:E.
  - specialize (IH first'). destruct (feed_ first' rest) as [more thrown]. exact IH.
  - exfalso. exact (proj1 (write_returns_spec true data) Hc eq_refl first finish E).
Qed.

End StreamFacts.

Lemma array_stream_is_a_bracketed_list_witness :
  let pre := [JArr []; JArr [JStr "a"]; JArr []] in
  let last := JArr [JStr "b"] in
  let calls := map (fun d : jsval => (d, false)) pre ++ [(last, true)] in
  sink_text (fst (streamArray render trim_spaces true calls)) =
    "[" +:+ newline +:+ quoted "a" +:+ "," +:+ quoted "b" +:+ "]" /\
  exists writes,
    streamArray render trim_spaces true calls =
      (writes ++ [SinkEnd (Some (quoted "b" +:+ "]"))], false) /\
    forallb is_write writes = true /\
    sink_text (writes ++ [SinkEnd (Some (quoted "b" +:+ "]"))]) =
      "[" +:+ newline +:+
      join_commas (List.filter (fun f => negb (blank trim_spaces f))
                     ([EmptyString; quoted "a"; EmptyString] ++ [quoted "b"])) +:+ "]".
Proof.
  intros pre last calls. split; [reflexivity|].
  refine (array_stream_is_a_bracketed_list render trim_spaces pre
            [EmptyString; quoted "a"; EmptyString] last (quoted "b") _ eq_refl _).
  - repeat constructor.
  - repeat (constructor; [intros H; first [reflexivity|discriminate H]|]).
    constructor.
Defined.

(* ===================================================================== *)
(** ** A run that streams *)
(* ===================================================================== *)

Section StreamedRun.
Variable doc : Type.
Variable isObject : jsval -> bool.
Variable isUrl : jsval -> bool.
Variable settling : nat -> list nat.
Variable root : option string -> jsval.
Variable compact : list jsval -> list jsval.
Variable resolve : source doc -> jsval -> jsval -> jsval.
Variable call_function : nat -> doc -> result jsval.
Variable doc_text : doc -> string.
Variable regexp_match : nat -> string -> option (list jsval).
Variable find : doc -> option string -> list doc.
Variable xray : option string -> jsval -> doc -> result jsval.
Variable order : nat -> list nat.
Variable request : jsval -> result jsval.
Variable load : source doc -> option jsval -> doc.
Variable customTypes : list (string * typeConfig doc).
Variable strictMode : bool.
Variable selector : jsval.
Variable scope : option string.
Variable stringify : jsval -> option string.
Variable trim : string -> string.

Abbreviation node_ :=
  (node doc isObject isUrl settling root compact resolve call_function doc_text regexp_match
        find xray order request load customTypes strictMode selector scope).
Abbreviation closing_write_ :=
  (node_closing_write doc isObject isUrl settling root compact resolve call_function
     doc_text regexp_match find xray order request load customTypes strictMode
     selector scope).

(** X16.  A paginated run that reports a value leaves a complete list
    on its stream.  The array helper of a fresh node, given the stream
    calls of the run, does not throw when every page has a rendering;
    the stream receives writes and then one [end]; and the text is the
    bracketed list of the fragments of the pages, in the order of the
    pages, those that are blank left out. *)
Theorem paginated_stream_is_the_list_of_pages :
  forall (fuel : nat) (st : state) (src : source doc) (v : jsval) (frags : list string),
    truthy (st_paginate st) = true ->
    st_stream st = None ->
    reports (fst (node_ fuel st src)) = [Ok v] ->
    Forall2 (fun d f => rendering stringify d = Some f)
            (streamed (fst (node_ fuel st src))) frags ->
    Forall (fun f => blank trim f = true -> f = EmptyString) frags ->
    exists writes chunk,
      streamArray stringify trim true (stream_calls (fst (node_ fuel st src))) =
        (writes ++ [SinkEnd (Some chunk)], false) /\
      forallb is_write writes = true /\
      sink_text (writes ++ [SinkEnd (Some chunk)]) =
        "[" +:+ newline +:+
        join_commas (List.filter (fun f => negb (blank trim f)) frags) +:+ "]".
Proof.
  intros fuel st src v frags _ _ Hrep Hfrags Hblank.
  pose proof (closing_write_ fuel st src) as Hclosed. rewrite Hrep in Hclosed.
  destruct Hclosed as (pre & last & Hcalls).
  rewrite <- stream_calls_streamed, Hcalls, map_app, map_map in Hfrags.
  cbn [map fst] in Hfrags. rewrite map_id in Hfrags.
  apply Forall2_app_inv_l in Hfrags as (f1 & f2 & Hpre & Hlast & ->).
  inversion Hlast as [|? lastfrag ? ? Hl Hnil]; subst. inversion Hnil; subst.
  destruct (array_feed_closed stringify trim pre f1 Hpre true last lastfrag Hl Hblank)
    as (writes & Hfeed & Hw & Htext).
  exists writes, (lastfrag +:+ "]"). unfold streamArray.
  rewrite Hcalls, Htext, append_assoc_. repeat split; assumption.
Qed.

(** X17.  A paginated run that reports an error does not end its
    stream: with or without a stream, when no call of the array helper
    throws, nothing the helper passes on is an [end]; what the stream
    gets from the callback of [waitCb] is the error. *)
Theorem failed_run_leaves_the_stream_open :
  forall (fuel : nat) (st : state) (src : source doc) (e : jserror) (attached : bool),
    reports (fst (node_ fuel st src)) = [Err e] ->
    snd (streamArray stringify trim attached
           (stream_calls (fst (node_ fuel st src)))) = false ->
    forallb (fun op => negb (is_end op))
            (fst (streamArray stringify trim attached
                    (stream_calls (fst (node_ fuel st src))))) = true /\
    concat (map waitCb (reports (fst (node_ fuel st src)))) = [SinkError e].
Proof.
  intros fuel st src e attached Hrep _.
  pose proof (closing_write_ fuel st src) as Hopen. rewrite Hrep in Hopen.
  rewrite Hrep. unfold streamArray.
  destruct attached; cbn [fst forallb]; split; try reflexivity.
  apply array_feed_unfinished, Hopen.
Qed.

(** X19.  Without pagination the stream gets the value once: the
    object helper of a node with a stream (the helper in use unless an
    earlier, paginated run made the one for arrays), given the stream
    calls of a run whose first page gave a value, ends the stream with the
    rendering of that value and writes nothing else; without a stream
    it does nothing. *)
Theorem object_stream_gets_the_value_once :
  forall (fuel : nat) (st : state) (src : source doc) (obj : jsval) (ctx : doc),
    truthy (st_paginate st) = false ->
    st_stream st <> Some ArrayStream ->
    snd (first_page doc isObject isUrl settling root compact resolve call_function
           doc_text regexp_match find xray order request load customTypes strictMode
           selector scope src) = Some (SigOk obj ctx) ->
    streamObject stringify true (stream_calls (fst (node_ fuel st src))) =
      [SinkEnd (stringify obj)] /\
    streamObject stringify false (stream_calls (fst (node_ fuel st src))) = [] /\
    reports (fst (node_ fuel st src)) = [Ok obj].
Proof.
  intros fuel st src obj ctx Hp _ Hfirst.
  rewrite (node_without_paginate doc isObject isUrl settling root compact resolve
             call_function doc_text regexp_match find xray order request load
             customTypes strictMode selector scope fuel st src Hp).
  rewrite Hfirst. cbn [fst].
  destruct (first_page_events doc isObject isUrl settling root compact resolve
              call_function doc_text regexp_match find xray order request load
              customTypes strictMode selector scope src) as (Hr & Hs & _).
  rewrite stream_calls_app, reports_app, Hr, (stream_calls_none _ Hs).
  repeat split.
Qed.

End StreamedRun.

Lemma paginated_stream_is_the_list_of_pages_witness :
  let st := Site.paginated 2 None in
  let run := on_site node false Site.items None 5%nat st (SrcVal (Site.url_of 1)) in
  let frags := [quoted "a" +:+ "," +:+ quoted "b" +:+ "," +:+ quoted "c";
                quoted "d" +:+ "," +:+ quoted "e"] in
  streamed (fst run) =
    [JArr [JStr "a"; JStr "b"; JStr "c"]; JArr [JStr "d"; JStr "e"]] /\
  sink_text (fst (streamArray render trim_spaces true (stream_calls (fst run)))) =
    "[" +:+ newline +:+ quoted "a" +:+ "," +:+ quoted "b" +:+ "," +:+ quoted "c" +:+
    "," +:+ quoted "d" +:+ "," +:+ quoted "e" +:+ "]" /\
  exists writes chunk,
    streamArray render trim_spaces true (stream_calls (fst run)) =
      (writes ++ [SinkEnd (Some chunk)], false) /\
    forallb is_write writes = true /\
    sink_text (writes ++ [SinkEnd (Some chunk)]) =
      "[" +:+ newline +:+
      join_commas (List.filter (fun f => negb (blank trim_spaces f)) frags) +:+ "]".
Proof.
  intros st run frags. split; [reflexivity|]. split; [reflexivity|].
  refine (on_site paginated_stream_is_the_list_of_pages false Site.items None
            render trim_spaces 5%nat st (SrcVal (Site.url_of 1))
            (JArr [JStr "a"; JStr "b"; JStr "c"; JStr "d"; JStr "e"]) frags
            eq_refl eq_refl eq_refl _ _).
  - repeat constructor.
  - repeat (constructor; [intros H; first [reflexivity|discriminate H]|]).
    constructor.
Defined.

Lemma failed_run_leaves_the_stream_open_witness :
  let st := Site.paginated 3 None in
  let run :=
    node Site.page Site.isObject Site.isUrl Site.settling Site.root Site.compact
         Site.resolve Site.call_function Site.doc_text Site.regexp_match Site.find
         Site.xray Site.order first_page_only Site.load Site.customTypes false
         Site.items None 5%nat st (SrcVal (Site.url_of 1)) in
  stream_calls (fst run) = [(JArr [JStr "a"; JStr "b"; JStr "c"], false)] /\
  reports (fst run) = [Err (Failure 503)] /\
  forallb (fun op => negb (is_end op))
          (fst (streamArray render trim_spaces true (stream_calls (fst run)))) = true /\
  concat (map waitCb (reports (fst run))) = [SinkError (Failure 503)].
Proof.
  intros st run. split; [reflexivity|]. split; [reflexivity|].
  exact (failed_run_leaves_the_stream_open
           Site.page Site.isObject Site.isUrl Site.settling Site.root Site.compact
           Site.resolve Site.call_function Site.doc_text Site.regexp_match Site.find
           Site.xray Site.order first_page_only Site.load Site.customTypes false
           Site.items None render trim_spaces 5%nat st (SrcVal (Site.url_of 1))
           (Failure 503) true eq_refl eq_refl).
Defined.

Lemma array_stream_throws_without_a_rendering_witness :
  let calls := [(JArr [JStr "a"], false); (JUndefined, false); (JArr [JStr "b"], true)] in
  render JUndefined = None /\
  streamArrayInner render trim_spaces false JUndefined false = None /\
  snd (array_feed render trim_spaces true calls) = true.
Proof.
  intros calls. split; [reflexivity|].
  refine (array_stream_throws_without_a_rendering render trim_spaces calls
            JUndefined false false _ eq_refl).
  right. left. reflexivity.
Defined.

Lemma object_stream_gets_the_value_once_witness :
  let run := on_site node false Site.titled None 5%nat INIT_STATE
                     (SrcVal (Site.url_of 1)) in
  streamObject (fun _ => Some "{}") true (stream_calls (fst run)) =
    [SinkEnd (Some "{}")] /\
  streamObject (fun _ => Some "{}") false (stream_calls (fst run)) = [] /\
  reports (fst run) = [Ok (JObj CtorObject [("title", JStr "one")])].
Proof.
  intros run.
  exact (on_site object_stream_gets_the_value_once false Site.titled None
           (fun _ => Some "{}") 5%nat INIT_STATE (SrcVal (Site.url_of 1))
           (JObj CtorObject [("title", JStr "one")]) 1%nat eq_refl
           ltac:(discriminate) eq_refl).
Defined.
